(** * Monkey Island bitmap font editor: a shallow embedding

    The development follows [monkey_island_font_editor.py]:

    - [PilImage] and [Module QImage] describe the two image objects the
      program moves pixels between (a decoded Pillow image and a Qt
      [Format_Indexed8] image);
    - [Canvas] is the attribute record of [PixelEditorCanvas], [Editor] that
      of [MonkeyIslandFontEditor];
    - methods are computations in a small state-and-exception monad [M] that
      also collects the observable effects (signals, repaint requests,
      written files, dialogs);
    - the theorems at the end relate the methods to the specification. *)

From Stdlib Require Import ZArith Ascii String List Bool Lia.
From stdpp Require Import base list.
Import ListNotations.

Local Open Scope Z_scope.

(** ** Pillow images, as the program observes them *)

(** What the program reads from an opened [PIL.Image]: [mode], the result of
    [getpalette()] (a flat list r,g,b,r,g,b,... or [None]), [size] and the
    result of [tobytes()]. *)
Record PilImage := mkPil {
  mode : string;
  getpalette : option (list Z);
  size : Z * Z;
  tobytes : list Z
}.

(** [Image.new('P', (width, height))] followed by [putpalette] and [putdata]:
    the object handed to [save]. *)
Definition Image_new_P (width height : Z) (palette pixels : list Z) : PilImage :=
  {| mode := "P"; getpalette := Some palette;
     size := (width, height); tobytes := pixels |}.

(** An opened indexed file: positive dimensions, one byte per pixel. *)
Definition is_byte (v : Z) : Prop := 0 <= v < 256.

Record pil_wf (im : PilImage) : Prop := {
  wf_width : 0 < fst (size im);
  wf_height : 0 < snd (size im);
  wf_length : Z.of_nat (length (tobytes im)) = fst (size im) * snd (size im);
  wf_bytes : Forall is_byte (tobytes im)
}.

(** Python truthiness of [self.original_palette] (a list or [None]). *)
Definition truthy (p : option (list Z)) : bool :=
  match p with
  | Some (_ :: _) => true
  | _ => false
  end.

(** [range(n)] over Python integers. *)
Definition range (n : Z) : list Z := map Z.of_nat (seq 0 (Z.to_nat n)).

(** ** Qt indexed images *)

Module QImage.

(** A [Format_Indexed8] image: dimensions, colour table and one index per
    pixel, kept row-major ([bits !! (y * width + x)]). *)
Record t := mk {
  width : Z;
  height : Z;
  colortable : list Z;
  bits : list Z
}.

(** [QImage(width, height, Format_Indexed8)]: the pixel data is not
    initialised, [heap] stands for whatever the allocation holds; the
    colour table starts empty.  Non-positive dimensions give the null
    image. *)
Definition create (w h : Z) (heap : nat -> Z) : t :=
  if (0 <? w) && (0 <? h)
  then mk w h [] (map heap (seq 0 (Z.to_nat (w * h))))
  else mk 0 0 [] [].

Definition valid (img : t) (x y : Z) : bool :=
  (0 <=? x) && (x <? width img) && (0 <=? y) && (y <? height img).

Definition offset (img : t) (x y : Z) : nat := Z.to_nat (y * width img + x).

(** [setColor(i, c)] grows the colour table (with zeros) when [i] lies
    beyond its end. *)
Definition setColor (i : nat) (c : Z) (img : t) : t :=
  let tbl := colortable img in
  let tbl' := tbl ++ replicate (S i - length tbl) 0 in
  mk (width img) (height img) (<[i := c]> tbl') (bits img).

Definition colorCount (img : t) : Z := Z.of_nat (length (colortable img)).

(** [setPixel(x, y, index)]: a coordinate outside the image or an index
    outside the colour table only produces a warning and leaves the
    image as it is. *)
Definition setPixel (x y index : Z) (img : t) : t :=
  if negb (valid img x y) then img
  else if colorCount img <=? index then img
  else mk (width img) (height img) (colortable img)
          (<[offset img x y := index]> (bits img)).

(** [pixelIndex(x, y)]; Qt answers -12345 outside the image. *)
Definition pixelIndex (img : t) (x y : Z) : Z :=
  if valid img x y
  then default 0 (bits img !! offset img x y)
  else -12345.

End QImage.

(** [QColor(r, g, b).rgb()] for components in 0..255. *)
Definition qRgb (r g b : Z) : Z :=
  Z.lor 4278190080
    (Z.lor (Z.shiftl (Z.land r 255) 16)
       (Z.lor (Z.shiftl (Z.land g 255) 8) (Z.land b 255))).

(** ** Effects, exceptions and the method monad *)

Inductive dialog := Warning | Information | Critical.

Inductive effect :=
| Update                                   (* self.update() *)
| SetFixedSize (w h : Z)                   (* self.setFixedSize(QSize(w, h)) *)
| PixelChanged (x y color_index : Z)       (* self.pixelChanged.emit(...) *)
| SaveBMP (path : string) (im : PilImage)  (* pil_image.save(path, 'BMP') *)
| InfoLabel (char_height num_chars : Z)     (* self.info_label.setText(...) *)
| MessageBox (kind : dialog) (title : string)
| LoadWorkspace.                           (* thumbnails rebuilt *)

Inductive exn :=
| ZeroDivisionError
| OverflowError
| OSError
| Exception (msg : string).

Inductive outcome (A : Type) :=
| Ok (a : A)
| Raise (e : exn).
Arguments Ok {A} a.
Arguments Raise {A} e.

(** A method over an object of type [S]: it may mutate the object, emit
    effects, and finish with a value or an exception.  Mutations and
    effects performed before an exception is raised are kept. *)
Definition M (S A : Type) : Type := S -> outcome A * S * list effect.

Definition ret {S A} (a : A) : M S A := fun s => (Ok a, s, []).

Definition bind {S A B} (m : M S A) (k : A -> M S B) : M S B :=
  fun s =>
    match m s with
    | (Ok a, s1, tr1) =>
        match k a s1 with
        | (r, s2, tr2) => (r, s2, tr1 ++ tr2)
        end
    | (Raise e, s1, tr1) => (Raise e, s1, tr1)
    end.

Definition raise {S A} (e : exn) : M S A := fun s => (Raise e, s, []).
Definition get {S} : M S S := fun s => (Ok s, s, []).
Definition modify {S} (f : S -> S) : M S unit := fun s => (Ok tt, f s, []).
Definition emit {S} (e : effect) : M S unit := fun s => (Ok tt, s, [e]).
Definition lift {S A} (o : outcome A) : M S A := fun s => (o, s, []).

(** [try: m except Exception as e: h e] *)
Definition try_except {S A} (m : M S A) (h : exn -> M S A) : M S A :=
  fun s =>
    match m s with
    | (Ok a, s1, tr1) => (Ok a, s1, tr1)
    | (Raise e, s1, tr1) =>
        match h e s1 with
        | (r, s2, tr2) => (r, s2, tr1 ++ tr2)
        end
    end.

Declare Scope method_scope.
Delimit Scope method_scope with method.
Notation "'do' x <- m ; k" := (bind m (fun x => k))
  (at level 10, x name, m at level 99, k at level 200) : method_scope.
Notation "m ;; k" := (bind m (fun _ => k))
  (at level 100, k at level 200, right associativity) : method_scope.
Local Open Scope method_scope.

(** Projections of a finished run. *)
Definition result_of {S A} (r : outcome A * S * list effect) : outcome A := fst (fst r).
Definition state_of {S A} (r : outcome A * S * list effect) : S := snd (fst r).
Definition trace_of {S A} (r : outcome A * S * list effect) : list effect := snd r.

(** Python's [a // b]. *)
Definition floordiv {S} (a b : Z) : M S Z :=
  if b =? 0 then raise ZeroDivisionError else ret (a / b).

(** *** Python integers handed to Qt *)

(** The values of a C [int]. *)
Definition fits_int (v : Z) : bool :=
  (-2147483648 <=? v) && (v <=? 2147483647).

(** An [int] argument of a Qt constructor or method: the binding raises
    [OverflowError] for a Python integer that is no C [int]. *)
Definition as_int {S} (v : Z) : M S Z :=
  if fits_int v then ret v else raise OverflowError.

(** An [int] argument of a signal declared [pyqtSignal(int, ...)]: the
    value is reduced to 32 bits, two's complement, and no exception is
    raised. *)
Definition wrap_int (v : Z) : Z :=
  (v + 2147483648) mod 4294967296 - 2147483648.


(** ** The outside world *)

(** What the environment answers during one call: the result of
    [Image.open], of [convert('P')], the contents of freshly allocated
    image memory, and whether a file can be written. *)
Record world := mkWorld {
  Image_open : string -> outcome PilImage;
  convert_P : PilImage -> outcome PilImage;
  heap : nat -> Z;
  writable : string -> bool
}.

(** ** PixelEditorCanvas *)

Record Canvas := mkCanvas {
  image : option QImage.t;
  original_palette : option (list Z);
  zoom_level : Z;
  grid_enabled : bool;
  current_color_index : Z;
  drawing : bool;
  char_height : Z;
  show_char_indices : bool;
  hover_y : Z
}.

(** [__init__] *)
Definition Canvas_init : Canvas :=
  {| image := None; original_palette := None; zoom_level := 20;
     grid_enabled := true; current_color_index := 1; drawing := false;
     char_height := 8; show_char_indices := true; hover_y := -1 |}.

Definition with_image (v : option QImage.t) (c : Canvas) : Canvas :=
  mkCanvas v (original_palette c) (zoom_level c) (grid_enabled c)
    (current_color_index c) (drawing c) (char_height c)
    (show_char_indices c) (hover_y c).
Definition with_original_palette (v : option (list Z)) (c : Canvas) : Canvas :=
  mkCanvas (image c) v (zoom_level c) (grid_enabled c)
    (current_color_index c) (drawing c) (char_height c)
    (show_char_indices c) (hover_y c).
Definition with_zoom_level (v : Z) (c : Canvas) : Canvas :=
  mkCanvas (image c) (original_palette c) v (grid_enabled c)
    (current_color_index c) (drawing c) (char_height c)
    (show_char_indices c) (hover_y c).
Definition with_current_color_index (v : Z) (c : Canvas) : Canvas :=
  mkCanvas (image c) (original_palette c) (zoom_level c) (grid_enabled c)
    v (drawing c) (char_height c) (show_char_indices c) (hover_y c).
Definition with_drawing (v : bool) (c : Canvas) : Canvas :=
  mkCanvas (image c) (original_palette c) (zoom_level c) (grid_enabled c)
    (current_color_index c) v (char_height c) (show_char_indices c)
    (hover_y c).
Definition with_char_height (v : Z) (c : Canvas) : Canvas :=
  mkCanvas (image c) (original_palette c) (zoom_level c) (grid_enabled c)
    (current_color_index c) (drawing c) v (show_char_indices c) (hover_y c).
Definition with_hover_y (v : Z) (c : Canvas) : Canvas :=
  mkCanvas (image c) (original_palette c) (zoom_level c) (grid_enabled c)
    (current_color_index c) (drawing c) (char_height c)
    (show_char_indices c) v.

(** In-place change of the object [self.image] refers to. *)
Definition modify_image (f : QImage.t -> QImage.t) : M Canvas unit :=
  modify (fun c => with_image (option_map f (image c)) c).

(** *** load_image *)

(** Lines 60-73: character height from the bitmap height. *)
Definition detect_char_height (height : Z) : Z :=
  if height =? 2048 then 8
  else if height =? 2259 then 9
  else if height =? 3390 then 15
  else if height =? 3584 then 14
  else
    let char_height := height / 256 in
    if char_height <? 1 then 8 else char_height.

(** [palette[k] if k < len(palette) else 0] *)
Definition item_or_0 (palette : list Z) (k : Z) : Z :=
  if k <? Z.of_nat (length palette)
  then default 0 (palette !! Z.to_nat k)
  else 0.

(** Lines 78-84: the loop over [range(256)] filling the colour table. *)
Definition set_color_table (palette : list Z) (img : QImage.t) : QImage.t :=
  foldl (fun img i =>
           let r := item_or_0 palette (i * 3) in
           let g := item_or_0 palette (i * 3 + 1) in
           let b := item_or_0 palette (i * 3 + 2) in
           QImage.setColor (Z.to_nat i) (qRgb r g b) img)
        img (range 256).

(** Lines 87-92: the two nested loops copying [pixel_data]. *)
Definition copy_row (width : Z) (pixel_data : list Z) (img : QImage.t) (y : Z)
  : QImage.t :=
  foldl (fun img x =>
           let idx := y * width + x in
           if idx <? Z.of_nat (length pixel_data)
           then QImage.setPixel x y (default 0 (pixel_data !! Z.to_nat idx)) img
           else img)
        img (range width).

Definition copy_pixels (width height : Z) (pixel_data : list Z) (img : QImage.t)
  : QImage.t :=
  foldl (copy_row width pixel_data) img (range height).

Definition update : M Canvas unit := emit Update.

(** Lines 97-104.  [QSize(w, h)] takes two C [int]s. *)
Definition update_size : M Canvas unit :=
  do self <- get;
  match image self with
  | Some img =>
      do w <- as_int (QImage.width img * zoom_level self);
      do h <- as_int (QImage.height img * zoom_level self);
      emit (SetFixedSize w h)
  | None => ret tt
  end.

Definition is_P (im : PilImage) : bool := String.eqb (mode im) "P".

Definition load_image (w : world) (image_path : string) : M Canvas unit :=
  do pil_image <- lift (Image_open w image_path);
  (if is_P pil_image
   then modify (with_original_palette (getpalette pil_image))
   else ret tt) ;;
  do pil_image <- (if negb (is_P pil_image)
                   then lift (convert_P w pil_image)
                   else ret pil_image);
  let width := fst (size pil_image) in
  let height := snd (size pil_image) in
  modify (with_char_height (detect_char_height height)) ;;
  modify (with_image (Some (QImage.create width height (heap w)))) ;;
  do self <- get;
  (if truthy (original_palette self)
   then modify_image
          (set_color_table (take 768 (default [] (original_palette self))))
   else ret tt) ;;
  modify_image (copy_pixels width height (tobytes pil_image)) ;;
  update_size ;;
  update.

(** *** paintEvent, lines 141-150: the glyph overlay *)

(** Lines 142-143: how many glyph labels are drawn. *)
Definition overlay_num_chars (self : Canvas) : option Z :=
  match image self with
  | None => None
  | Some img =>
      if show_char_indices self && (0 <? char_height self)
      then Some (QImage.height img / char_height self)
      else None
  end.

(** Lines 149-150: the glyph under the pointer is highlighted. *)
Definition is_hovered (self : Canvas) (char_idx : Z) : bool :=
  (char_idx * char_height self <=? hover_y self)
  && (hover_y self <? (char_idx + 1) * char_height self).

(** Lines 145-146: the band of a glyph on the widget. *)
Definition y_start (self : Canvas) (char_idx : Z) : Z :=
  char_idx * char_height self * zoom_level self.
Definition y_end (self : Canvas) (char_idx : Z) : Z :=
  (char_idx + 1) * char_height self * zoom_level self.

(** Line 144: the glyphs the overlay loop visits. *)
Definition overlay_glyphs (self : Canvas) : list Z :=
  match overlay_num_chars self with
  | Some num_chars => range num_chars
  | None => []
  end.

(** Lines 144-150: the glyphs of the overlay loop that are drawn
    highlighted. *)
Definition highlighted_glyphs (self : Canvas) : list Z :=
  List.filter (is_hovered self) (overlay_glyphs self).

(** *** Mouse handling *)

Inductive button := LeftButton | RightButton | MiddleButton.

Definition is_left (b : button) : bool :=
  match b with LeftButton => true | _ => false end.

(** Lines 204-205: [pos.x() // zoom_level, pos.y() // zoom_level]. *)
Definition pointer_to_cell (pos : Z * Z) (zoom : Z) : M Canvas (Z * Z) :=
  do x <- floordiv (fst pos) zoom;
  do y <- floordiv (snd pos) zoom;
  ret (x, y).

(** The binding converts the index argument of [setPixel] to a C
    [unsigned int]. *)
Definition as_uint (v : Z) : M Canvas Z :=
  if (v <? 0) || (4294967295 <? v) then raise OverflowError else ret v.

(** Lines 199-210.  [pixelChanged] is declared [pyqtSignal(int, int, int)]:
    the colour index travels as a C [int].  The cell is inside the image,
    whose width and height are C [int]s already. *)
Definition draw_pixel (pos : Z * Z) : M Canvas unit :=
  do self <- get;
  match image self with
  | None => ret tt
  | Some img =>
      do cell <- pointer_to_cell pos (zoom_level self);
      let x := fst cell in
      let y := snd cell in
      if (0 <=? x) && (x <? QImage.width img)
         && (0 <=? y) && (y <? QImage.height img)
      then
        do index <- as_uint (current_color_index self);
        modify_image (QImage.setPixel x y index) ;;
        update ;;
        emit (PixelChanged x y (wrap_int (current_color_index self)))
      else ret tt
  end.

Definition mousePressEvent (b : button) (pos : Z * Z) : M Canvas unit :=
  do self <- get;
  match image self with
  | Some _ =>
      if is_left b
      then modify (with_drawing true) ;; draw_pixel pos
      else ret tt
  | None => ret tt
  end.

Definition mouseMoveEvent (pos : Z * Z) : M Canvas unit :=
  do self <- get;
  match image self with
  | Some _ =>
      let old_hover := hover_y self in
      do new_hover <- floordiv (snd pos) (zoom_level self);
      modify (with_hover_y new_hover) ;;
      (if old_hover =? new_hover then ret tt else update) ;;
      if drawing self then draw_pixel pos else ret tt
  | None => ret tt
  end.

Definition mouseReleaseEvent (b : button) : M Canvas unit :=
  if is_left b then modify (with_drawing false) else ret tt.

Definition set_zoom (zoom_level : Z) : M Canvas unit :=
  modify (with_zoom_level zoom_level) ;;
  update_size ;;
  update.

Definition set_color (color_index : Z) : M Canvas unit :=
  modify (with_current_color_index color_index).

Definition set_char_height (height : Z) : M Canvas unit :=
  modify (with_char_height height) ;;
  update.

(** *** save_image *)

(** Lines 241-244: the pixel indices, row by row. *)
Definition read_pixels (img : QImage.t) : list Z :=
  flat_map (fun y => map (fun x => QImage.pixelIndex img x y)
                         (range (QImage.width img)))
           (range (QImage.height img)).

Definition save_image (w : world) (output_path : string) : M Canvas bool :=
  do self <- get;
  match image self with
  | None => ret false
  | Some img =>
      if negb (truthy (original_palette self)) then ret false
      else
        let pil_image :=
          Image_new_P (QImage.width img) (QImage.height img)
            (default [] (original_palette self)) (read_pixels img) in
        if writable w output_path
        then emit (SaveBMP output_path pil_image) ;; ret true
        else raise OSError
  end.

(** ** MonkeyIslandFontEditor *)

Record Editor := mkEditor {
  current_file : option string;
  current_index : option Z;
  canvas : Canvas
}.

Definition Editor_init : Editor :=
  {| current_file := None; current_index := None; canvas := Canvas_init |}.

(** A call [self.canvas.method(...)]. *)
Definition on_canvas {A} (m : M Canvas A) : M Editor A :=
  fun e =>
    match m (canvas e) with
    | (r, c, tr) => (r, mkEditor (current_file e) (current_index e) c, tr)
    end.

(** A call of [load_workspace] from [save_current], as one effect; what the
    call builds is [load_workspace_view] below. *)
Definition load_workspace : M Editor unit := emit LoadWorkspace.

Definition load_character (w : world) (filepath : string) (index : Z)
  : M Editor unit :=
  modify (fun e => mkEditor (Some filepath) (Some index) (canvas e)) ;;
  try_except
    (on_canvas (load_image w filepath) ;;
     do self <- get;
     match image (canvas self) with
     | Some img =>
         do num_chars <- floordiv (QImage.height img) (char_height (canvas self));
         emit (InfoLabel (char_height (canvas self)) num_chars)
     | None => ret tt
     end)
    (fun _ => emit (MessageBox Critical "Load Error")).

Definition set_color_button (color_index : Z) : M Editor unit :=
  on_canvas (set_color color_index).

Definition adjust_zoom (delta : Z) : M Editor unit :=
  do self <- get;
  let new_zoom := Z.max 5 (Z.min 50 (zoom_level (canvas self) + delta)) in
  on_canvas (set_zoom new_zoom).

(** Python truthiness of [self.current_file] (a string or [None]). *)
Definition file_set (f : option string) : option string :=
  match f with
  | Some EmptyString => None
  | other => other
  end.

Definition save_current (w : world) : M Editor unit :=
  do self <- get;
  match file_set (current_file self) with
  | None => emit (MessageBox Warning "No File")
  | Some path =>
      try_except
        (do saved <- on_canvas (save_image w path);
         if saved
         then emit (MessageBox Information "Saved") ;; load_workspace
         else raise (Exception "Save failed"))
        (fun _ => emit (MessageBox Critical "Save Error"))
  end.

(** *** load_workspace and the thumbnails *)

(** A [Path] of the workspace, as far as the code looks at it:
    [str(filepath)] and [filepath.stem]. *)
Record Path := mkPath { path_str : string; path_stem : string }.



(** [s.replace(old, empty)] for a non-empty [old]: the occurrences are
    found from left to right and do not overlap.  [skip] counts the
    characters of the occurrence being removed that are still to drop. *)
Fixpoint remove_all (old : string) (skip : nat) (s : string) : string :=
  match s with
  | EmptyString => EmptyString
  | String ch rest =>
      match skip with
      | S n => remove_all old n rest
      | O =>
          if String.prefix old s
          then remove_all old (String.length old - 1) rest
          else String ch (remove_all old O rest)
      end
  end.

Definition replace_char (filename : string) : string :=
  remove_all "char" 0 filename.



Section Workspace.
(** Python's [int(s)]: [None] stands for [ValueError]. *)
Variable py_int : string -> option Z.

(** Lines 427-430: the index shown on a thumbnail. *)
Definition thumbnail_index (i : nat) (filepath : Path) : Z :=
  match py_int (replace_char (path_stem filepath)) with
  | Some index => index
  | None => Z.of_nat i + 1
  end.



End Workspace.


(** ** The events of the user interface *)

Inductive ui_event :=
| ThumbnailClicked (w : world) (filepath : string) (index : Z)
| MousePress (b : button) (pos : Z * Z)
| MouseMove (pos : Z * Z)
| MouseRelease (b : button)
| ZoomOutClicked
| ZoomInClicked
| Color0Clicked
| Color1Clicked
| SaveClicked (w : world).

Definition handle (ev : ui_event) : M Editor unit :=
  match ev with
  | ThumbnailClicked w filepath index => load_character w filepath index
  | MousePress b pos => on_canvas (mousePressEvent b pos)
  | MouseMove pos => on_canvas (mouseMoveEvent pos)
  | MouseRelease b => on_canvas (mouseReleaseEvent b)
  | ZoomOutClicked => adjust_zoom (-5)
  | ZoomInClicked => adjust_zoom 5
  | Color0Clicked => set_color_button 0
  | Color1Clicked => set_color_button 1
  | SaveClicked w => save_current w
  end.

(** Events are handled one after the other; an exception that leaves a
    handler ends the run. *)
Fixpoint run (evs : list ui_event) : M Editor unit :=
  match evs with
  | [] => ret tt
  | ev :: rest => handle ev ;; run rest
  end.

(** The events of a paint stroke and of the drawing controls: everything
    but opening and saving a file. *)
Definition is_paint_event (ev : ui_event) : bool :=
  match ev with
  | ThumbnailClicked _ _ _ | SaveClicked _ => false
  | _ => true
  end.

(** The paint signals in a trace. *)
Definition paint_signals (tr : list effect) : list (Z * Z * Z) :=
  flat_map (fun e => match e with
                     | PixelChanged x y c => [(x, y, c)]
                     | _ => []
                     end) tr.

(** The files written in a trace. *)
Definition written_files (tr : list effect) : list (string * PilImage) :=
  flat_map (fun e => match e with
                     | SaveBMP path im => [(path, im)]
                     | _ => []
                     end) tr.

(** * Properties *)

(** ** Lists as pixel buffers *)

Section Buffers.
Context {A : Type}.
Implicit Types (l data junk : list A).

(** Overwriting position [n] of a buffer whose first [n] cells already
    hold [data] extends the copied prefix by one. *)
Lemma insert_take_drop data junk (n : nat) v :
  data !! n = Some v -> (n < length junk)%nat ->
  <[n := v]> (take n data ++ drop n junk)
  = take (S n) data ++ drop (S n) junk.
Proof.
  intros Hv Hn.
  assert (Hlen : length (take n data) = n).
  { apply length_take_le. apply lookup_lt_Some in Hv. lia. }
  destruct (lookup_lt_is_Some_2 junk n Hn) as [j Hj].
  rewrite (take_S_r _ _ _ Hv), (drop_S _ _ _ Hj).
  rewrite insert_app_r_alt by lia.
  rewrite Hlen, Nat.sub_diag. simpl.
  now rewrite <- app_assoc.
Qed.

Lemma range_S (n : nat) :
  map Z.of_nat (seq 0 (S n)) = map Z.of_nat (seq 0 n) ++ [Z.of_nat n].
Proof. now rewrite seq_S, map_app. Qed.
End Buffers.

Lemma range_nat (n : nat) : range (Z.of_nat n) = map Z.of_nat (seq 0 n).
Proof. unfold range. now rewrite Nat2Z.id. Qed.

(** ** The colour table after [load_image] *)

Lemma setColor_frame i c img :
  QImage.width (QImage.setColor i c img) = QImage.width img /\
  QImage.height (QImage.setColor i c img) = QImage.height img /\
  QImage.bits (QImage.setColor i c img) = QImage.bits img /\
  length (QImage.colortable (QImage.setColor i c img))
  = Nat.max (length (QImage.colortable img)) (S i).
Proof.
  unfold QImage.setColor. simpl. repeat split.
  rewrite length_insert, length_app, length_replicate. lia.
Qed.

Lemma set_color_table_loop palette (n : nat) img :
  let step := fun img i =>
    QImage.setColor (Z.to_nat i)
      (qRgb (item_or_0 palette (i * 3)) (item_or_0 palette (i * 3 + 1))
            (item_or_0 palette (i * 3 + 2))) img in
  let r := foldl step img (map Z.of_nat (seq 0 n)) in
  QImage.width r = QImage.width img /\
  QImage.height r = QImage.height img /\
  QImage.bits r = QImage.bits img /\
  length (QImage.colortable r) = Nat.max (length (QImage.colortable img)) n.
Proof.
  intros step. cbv zeta. induction n as [|n IH].
  - simpl. repeat split. lia.
  - rewrite range_S, foldl_app. cbn [foldl].
    destruct IH as (Hw & Hh & Hb & Hc).
    set (prev := foldl step img (map Z.of_nat (seq 0 n))) in *.
    unfold step at 1 2 3 4.
    destruct (setColor_frame (Z.to_nat (Z.of_nat n))
                (qRgb (item_or_0 palette (Z.of_nat n * 3))
                      (item_or_0 palette (Z.of_nat n * 3 + 1))
                      (item_or_0 palette (Z.of_nat n * 3 + 2))) prev)
      as (Hw' & Hh' & Hb' & Hc').
    rewrite Hw', Hh', Hb', Hc', Hw, Hh, Hb, Hc, Nat2Z.id.
    repeat split. lia.
Qed.

Lemma set_color_table_spec palette img :
  let r := set_color_table palette img in
  QImage.width r = QImage.width img /\
  QImage.height r = QImage.height img /\
  QImage.bits r = QImage.bits img /\
  length (QImage.colortable r)
  = Nat.max (length (QImage.colortable img)) 256.
Proof.
  unfold set_color_table.
  change (range 256) with (range (Z.of_nat 256)).
  rewrite range_nat. apply set_color_table_loop.
Qed.

(** ** Copying the pixel data in and out *)

(** [copied data junk n img0 img]: [img] is [img0] with its first [n]
    pixels (row-major) replaced by those of [data]; [junk] is what the
    buffer held at first. *)
Definition copied (data junk : list Z) (n : nat) (img0 img : QImage.t) : Prop :=
  QImage.width img = QImage.width img0 /\
  QImage.height img = QImage.height img0 /\
  QImage.colortable img = QImage.colortable img0 /\
  QImage.bits img = take n data ++ drop n junk.

Section CopyPixels.
Variables (wn hn : nat) (data junk : list Z) (img0 : QImage.t).
Hypothesis Hwidth : QImage.width img0 = Z.of_nat wn.
Hypothesis Hheight : QImage.height img0 = Z.of_nat hn.
Hypothesis Hcolors : QImage.colorCount img0 = 256.
Hypothesis Hdata : length data = (wn * hn)%nat.
Hypothesis Hbits : QImage.bits img0 = junk.
Hypothesis Hjunk : length junk = (wn * hn)%nat.
Hypothesis Hbytes : Forall is_byte data.

(** One iteration of the inner loop. *)
Lemma copy_step (yn xn : nat) img :
  (yn < hn)%nat -> (xn < wn)%nat ->
  copied data junk (yn * wn + xn) img0 img ->
  let idx := Z.of_nat yn * Z.of_nat wn + Z.of_nat xn in
  copied data junk (S (yn * wn + xn)) img0
    (if idx <? Z.of_nat (length data)
     then QImage.setPixel (Z.of_nat xn) (Z.of_nat yn)
            (default 0 (data !! Z.to_nat idx)) img
     else img).
Proof.
  intros Hy Hx (Hw & Hh & Hc & Hb) idx.
  assert (Hn : (yn * wn + xn < wn * hn)%nat) by nia.
  assert (Hidx : idx = Z.of_nat (yn * wn + xn)) by (unfold idx; lia).
  rewrite Hidx, Nat2Z.id.
  destruct (Z.ltb_spec (Z.of_nat (yn * wn + xn)) (Z.of_nat (length data)))
    as [_|Hge]; [|lia].
  destruct (lookup_lt_is_Some_2 data (yn * wn + xn)) as [v Hv]; [lia|].
  rewrite Hv. change (default 0 (Some v)) with v.
  assert (Hbyte : is_byte v).
  { exact (Forall_lookup_1 _ _ _ _ Hbytes Hv). }
  unfold QImage.setPixel, QImage.valid, QImage.colorCount, QImage.offset.
  rewrite Hw, Hh, Hc, Hwidth, Hheight.
  unfold QImage.colorCount in Hcolors. rewrite Hcolors.
  replace ((0 <=? Z.of_nat xn) && (Z.of_nat xn <? Z.of_nat wn)
           && (0 <=? Z.of_nat yn) && (Z.of_nat yn <? Z.of_nat hn))
    with true.
  2:{ symmetry. rewrite !andb_true_iff.
      rewrite !Z.leb_le, !Z.ltb_lt. lia. }
  cbn [negb].
  destruct (Z.leb_spec 256 v) as [Hbig|_]; [unfold is_byte in Hbyte; lia|].
  unfold copied. cbn [QImage.width QImage.height QImage.colortable QImage.bits].
  split; [congruence|]. split; [congruence|]. split; [congruence|].
  replace (Z.to_nat (Z.of_nat yn * Z.of_nat wn + Z.of_nat xn))
    with (yn * wn + xn)%nat by lia.
  rewrite Hb. apply insert_take_drop; [assumption | lia].
Qed.

(** The inner loop over the first [kn] columns of row [yn]. *)
Lemma copy_row_prefix (yn kn : nat) img :
  (yn < hn)%nat -> (kn <= wn)%nat ->
  copied data junk (yn * wn) img0 img ->
  copied data junk (yn * wn + kn) img0
    (foldl (fun img x =>
              let idx := Z.of_nat yn * Z.of_nat wn + x in
              if idx <? Z.of_nat (length data)
              then QImage.setPixel x (Z.of_nat yn)
                     (default 0 (data !! Z.to_nat idx)) img
              else img)
           img (map Z.of_nat (seq 0 kn))).
Proof.
  intros Hy Hk Himg. induction kn as [|k IH].
  - simpl. now rewrite Nat.add_0_r.
  - rewrite range_S, foldl_app. cbn [foldl].
    replace (yn * wn + S k)%nat with (S (yn * wn + k)) by lia.
    apply copy_step; [assumption | lia | apply IH; lia].
Qed.

Lemma copy_row_spec (yn : nat) img :
  (yn < hn)%nat ->
  copied data junk (yn * wn) img0 img ->
  copied data junk (S yn * wn) img0
    (copy_row (Z.of_nat wn) data img (Z.of_nat yn)).
Proof.
  intros Hy Himg. unfold copy_row. rewrite range_nat.
  replace (S yn * wn)%nat with (yn * wn + wn)%nat by lia.
  now apply copy_row_prefix.
Qed.

(** The outer loop over the first [kn] rows. *)
Lemma copy_rows_prefix (kn : nat) :
  (kn <= hn)%nat ->
  copied data junk (kn * wn) img0
    (foldl (copy_row (Z.of_nat wn) data) img0 (map Z.of_nat (seq 0 kn))).
Proof.
  intros Hk. induction kn as [|k IH].
  - simpl. unfold copied. now rewrite take_0, drop_0.
  - rewrite range_S, foldl_app. cbn [foldl].
    apply copy_row_spec; [lia | apply IH; lia].
Qed.

(** After both loops the buffer holds exactly the pixel data. *)
Lemma copy_pixels_spec :
  let img := copy_pixels (Z.of_nat wn) (Z.of_nat hn) data img0 in
  QImage.width img = QImage.width img0 /\
  QImage.height img = QImage.height img0 /\
  QImage.colortable img = QImage.colortable img0 /\
  QImage.bits img = data.
Proof.
  unfold copy_pixels. rewrite range_nat.
  destruct (copy_rows_prefix hn (Nat.le_refl hn)) as (Hw & Hh & Hc & Hb).
  cbv zeta. repeat split; try assumption.
  rewrite Hb, take_ge, drop_ge by lia. apply app_nil_r.
Qed.
End CopyPixels.

(** Reading the pixels back row by row gives the buffer. *)
Section ReadPixels.
Variables (wn hn : nat) (img : QImage.t).
Hypothesis Hwidth : QImage.width img = Z.of_nat wn.
Hypothesis Hheight : QImage.height img = Z.of_nat hn.
Hypothesis Hlen : length (QImage.bits img) = (wn * hn)%nat.

Lemma read_row_prefix (yn kn : nat) :
  (yn < hn)%nat -> (kn <= wn)%nat ->
  map (fun x => QImage.pixelIndex img x (Z.of_nat yn))
      (map Z.of_nat (seq 0 kn))
  = take kn (drop (yn * wn) (QImage.bits img)).
Proof.
  intros Hy Hk. induction kn as [|k IH].
  - now rewrite take_0.
  - rewrite range_S, map_app, IH by lia. cbn [map].
    assert (Hn : (yn * wn + k < wn * hn)%nat) by nia.
    destruct (lookup_lt_is_Some_2 (QImage.bits img) (yn * wn + k))
      as [v Hv]; [lia|].
    rewrite (take_S_r _ _ v) by now rewrite lookup_drop.
    f_equal. f_equal.
    unfold QImage.pixelIndex, QImage.valid, QImage.offset.
    rewrite Hwidth, Hheight.
    replace ((0 <=? Z.of_nat k) && (Z.of_nat k <? Z.of_nat wn)
             && (0 <=? Z.of_nat yn) && (Z.of_nat yn <? Z.of_nat hn))
      with true.
    2:{ symmetry. rewrite !andb_true_iff.
        rewrite !Z.leb_le, !Z.ltb_lt. lia. }
    replace (Z.to_nat (Z.of_nat yn * Z.of_nat wn + Z.of_nat k))
      with (yn * wn + k)%nat by lia.
    now rewrite Hv.
Qed.

Lemma read_rows_prefix (kn : nat) :
  (kn <= hn)%nat ->
  flat_map (fun y => map (fun x => QImage.pixelIndex img x y)
                         (map Z.of_nat (seq 0 wn)))
           (map Z.of_nat (seq 0 kn))
  = take (kn * wn) (QImage.bits img).
Proof.
  intros Hk. induction kn as [|k IH].
  - now rewrite take_0.
  - rewrite range_S, flat_map_app, IH by lia. cbn [flat_map].
    rewrite app_nil_r, read_row_prefix by lia.
    rewrite take_take_drop. f_equal. lia.
Qed.

Lemma read_pixels_spec : read_pixels img = QImage.bits img.
Proof.
  unfold read_pixels. rewrite Hwidth, Hheight, !range_nat.
  rewrite read_rows_prefix by lia. apply take_ge. lia.
Qed.
End ReadPixels.

(** ** What [load_image] computes *)

(** The image object built by [load_image] once the palette truthiness test
    has been made against the palette [pal] held at that point. *)
Definition loaded_image (w : world) (pal : option (list Z)) (im : PilImage)
  : QImage.t :=
  let img := QImage.create (fst (size im)) (snd (size im)) (heap w) in
  let img := if truthy pal
             then set_color_table (take 768 (default [] pal)) img
             else img in
  copy_pixels (fst (size im)) (snd (size im)) (tobytes im) img.

Definition loaded_canvas (w : world) (pal : option (list Z)) (im : PilImage)
  (c : Canvas) : Canvas :=
  with_image (Some (loaded_image w pal im))
    (with_char_height (detect_char_height (snd (size im)))
       (with_original_palette pal c)).

Ltac run_method :=
  cbv beta iota zeta delta
    [bind ret raise get modify emit lift try_except update update_size
     as_int modify_image on_canvas result_of state_of trace_of].

(** The widget can take the size of the zoomed image: both products are
    C [int]s. *)
Definition resizable (c : Canvas) : bool :=
  match image c with
  | Some img =>
      fits_int (QImage.width img * zoom_level c)
      && fits_int (QImage.height img * zoom_level c)
  | None => true
  end.

(** What [update_size()] followed by [update()] does: the request and the
    redraw, or the [OverflowError] of [QSize] before either. *)
Definition resize (c : Canvas) : outcome unit * Canvas * list effect :=
  if resizable c
  then (Ok tt, c,
        match image c with
        | Some img => [SetFixedSize (QImage.width img * zoom_level c)
                                    (QImage.height img * zoom_level c);
                       Update]
        | None => [Update]
        end)
  else (Raise OverflowError, c, []).

Lemma resize_eq c : (update_size ;; update) c = resize c.
Proof.
  unfold resize, resizable. run_method.
  destruct (image c) as [img|]; [|reflexivity].
  destruct (fits_int (QImage.width img * zoom_level c)); [|reflexivity].
  destruct (fits_int (QImage.height img * zoom_level c)); reflexivity.
Qed.

Lemma resize_state c : state_of (resize c) = c.
Proof. unfold resize. now destruct (resizable c). Qed.

Lemma resize_ok c :
  resizable c = true ->
  resize c
  = (Ok tt, c,
     match image c with
     | Some img => [SetFixedSize (QImage.width img * zoom_level c)
                                 (QImage.height img * zoom_level c);
                    Update]
     | None => [Update]
     end).
Proof. unfold resize. now intros ->. Qed.

Lemma resize_overflow c :
  resizable c = false -> resize c = (Raise OverflowError, c, []).
Proof. unfold resize. now intros ->. Qed.

(** [load_image] on a file that opens in mode 'P'. *)
Lemma load_image_indexed w path c im :
  Image_open w path = Ok im -> is_P im = true ->
  load_image w path c = resize (loaded_canvas w (getpalette im) im c).
Proof.
  intros Hopen HP. unfold load_image. run_method.
  rewrite Hopen, HP. cbn [negb]. run_method.
  unfold resize, resizable, loaded_canvas, loaded_image.
  cbn [original_palette with_original_palette with_char_height with_image
       image option_map zoom_level app].
  destruct (truthy (getpalette im));
    cbn [original_palette with_original_palette with_char_height with_image
         image option_map zoom_level app];
    repeat (destruct (fits_int _); cbn [andb]; try reflexivity).
Qed.

(** [load_image] on a file in another mode, converted. *)
Lemma load_image_converted w path c im im' :
  Image_open w path = Ok im -> is_P im = false ->
  convert_P w im = Ok im' ->
  load_image w path c = resize (loaded_canvas w (original_palette c) im' c).
Proof.
  intros Hopen HP Hconv. unfold load_image. run_method.
  rewrite Hopen, HP. cbn [negb]. run_method. rewrite Hconv.
  unfold resize, resizable, loaded_canvas, loaded_image.
  destruct c as [i p z g ci d ch s h].
  cbn [original_palette with_original_palette with_char_height with_image
       image option_map zoom_level app].
  destruct (truthy p);
    cbn [original_palette with_original_palette with_char_height with_image
         image option_map zoom_level app];
    repeat (destruct (fits_int _); cbn [andb]; try reflexivity).
Qed.

(** An exception of [Image.open] or [convert] leaves the canvas as it was. *)
Lemma load_image_open_fails w path c e :
  Image_open w path = Raise e ->
  load_image w path c = (Raise e, c, []).
Proof.
  intros Hopen. unfold load_image. run_method. now rewrite Hopen.
Qed.

Lemma load_image_convert_fails w path c im e :
  Image_open w path = Ok im -> is_P im = false ->
  convert_P w im = Raise e ->
  load_image w path c = (Raise e, c, []).
Proof.
  intros Hopen HP Hconv. unfold load_image. run_method.
  rewrite Hopen, HP. cbn [negb]. run_method. now rewrite Hconv.
Qed.

(** ** Shape of an image: what no pixel write can change *)

Definition same_shape (a b : QImage.t) : Prop :=
  QImage.width a = QImage.width b /\
  QImage.height a = QImage.height b /\
  QImage.colortable a = QImage.colortable b /\
  length (QImage.bits a) = length (QImage.bits b).

Lemma same_shape_refl a : same_shape a a.
Proof. now repeat split. Qed.

Lemma same_shape_trans a b c : same_shape a b -> same_shape b c -> same_shape a c.
Proof. unfold same_shape. intuition congruence. Qed.

Lemma setPixel_shape x y v img : same_shape (QImage.setPixel x y v img) img.
Proof.
  unfold QImage.setPixel.
  destruct (negb (QImage.valid img x y)); [apply same_shape_refl|].
  destruct (QImage.colorCount img <=? v); [apply same_shape_refl|].
  repeat split. cbn. apply length_insert.
Qed.

Lemma foldl_invariant {A B} (P : A -> Prop) (f : A -> B -> A) l a :
  (forall a b, P a -> P (f a b)) -> P a -> P (foldl f a l).
Proof.
  intros Hstep. revert a. induction l as [|b l IH]; intros a Ha; simpl; auto.
Qed.

Lemma copy_pixels_shape width height data img :
  same_shape (copy_pixels width height data img) img.
Proof.
  unfold copy_pixels.
  apply (foldl_invariant (fun i => same_shape i img)); [|apply same_shape_refl].
  intros a y Ha. unfold copy_row.
  apply (foldl_invariant (fun i => same_shape i img)); [|exact Ha].
  intros b x Hb. cbv zeta.
  destruct (y * width + x <? Z.of_nat (length data)); [|exact Hb].
  eapply same_shape_trans; [apply setPixel_shape | exact Hb].
Qed.

(** A well-formed image holds one index per pixel. *)
Definition QImage_wf (img : QImage.t) : Prop :=
  0 <= QImage.width img /\ 0 <= QImage.height img /\
  Z.of_nat (length (QImage.bits img)) = QImage.width img * QImage.height img.

Lemma same_shape_wf a b : same_shape a b -> QImage_wf b -> QImage_wf a.
Proof.
  intros (Hw & Hh & _ & Hl) (H1 & H2 & H3). unfold QImage_wf.
  rewrite Hw, Hh, Hl. auto.
Qed.

Lemma create_wf w h mem : QImage_wf (QImage.create w h mem).
Proof.
  unfold QImage.create, QImage_wf.
  destruct (Z.ltb_spec 0 w), (Z.ltb_spec 0 h); cbn; try lia.
  rewrite length_map, length_seq. lia.
Qed.

Lemma create_positive w h mem :
  0 < w -> 0 < h ->
  QImage.create w h mem
  = QImage.mk w h [] (map mem (seq 0 (Z.to_nat (w * h)))).
Proof.
  intros Hw Hh. unfold QImage.create.
  destruct (Z.ltb_spec 0 w), (Z.ltb_spec 0 h); cbn; try lia. reflexivity.
Qed.

(** The image built by [load_image] has the dimensions of the decoded
    picture, whatever the palette and the pixel data are. *)
Lemma loaded_image_dims w pal im :
  0 < fst (size im) -> 0 < snd (size im) ->
  QImage.width (loaded_image w pal im) = fst (size im) /\
  QImage.height (loaded_image w pal im) = snd (size im).
Proof.
  intros Hw Hh. unfold loaded_image. cbv zeta.
  match goal with
  | |- context [copy_pixels ?a ?b ?d ?i] =>
      destruct (copy_pixels_shape a b d i) as (Hw' & Hh' & _ & _)
  end.
  rewrite Hw', Hh'.
  destruct (truthy pal).
  - destruct (set_color_table_spec (take 768 (default [] pal))
                (QImage.create (fst (size im)) (snd (size im)) (heap w)))
      as (Hw2 & Hh2 & _ & _).
    rewrite Hw2, Hh2, create_positive by assumption.
    split; reflexivity.
  - rewrite create_positive by assumption. split; reflexivity.
Qed.

Lemma loaded_image_wf w pal im : QImage_wf (loaded_image w pal im).
Proof.
  unfold loaded_image. cbv zeta.
  eapply same_shape_wf; [apply copy_pixels_shape|].
  destruct (truthy pal); [|apply create_wf].
  destruct (set_color_table_spec (take 768 (default [] pal))
              (QImage.create (fst (size im)) (snd (size im)) (heap w)))
    as (Hw2 & Hh2 & Hb2 & _).
  pose proof (create_wf (fst (size im)) (snd (size im)) (heap w)) as Hwf.
  unfold QImage_wf in *. rewrite Hw2, Hh2, Hb2. exact Hwf.
Qed.

(** Copying a well-formed picture into an image of the same size whose
    colour table has 256 entries. *)
Lemma copy_pixels_indexed im img0 :
  pil_wf im ->
  QImage.width img0 = fst (size im) ->
  QImage.height img0 = snd (size im) ->
  QImage.colorCount img0 = 256 ->
  Z.of_nat (length (QImage.bits img0)) = fst (size im) * snd (size im) ->
  let img := copy_pixels (fst (size im)) (snd (size im)) (tobytes im) img0 in
  QImage.colorCount img = 256 /\ QImage.bits img = tobytes im.
Proof.
  intros [Hw Hh Hlen Hbytes] Hw0 Hh0 Hc0 Hb0.
  remember (Z.to_nat (fst (size im))) as wn eqn:Ewn.
  remember (Z.to_nat (snd (size im))) as hn eqn:Ehn.
  assert (HW : fst (size im) = Z.of_nat wn) by lia.
  assert (HH : snd (size im) = Z.of_nat hn) by lia.
  rewrite HW, HH in *.
  assert (Hd : length (tobytes im) = (wn * hn)%nat) by lia.
  assert (Hj : length (QImage.bits img0) = (wn * hn)%nat) by lia.
  pose proof (copy_pixels_spec wn hn (tobytes im) (QImage.bits img0) img0
                Hw0 Hh0 Hc0 Hd eq_refl Hj Hbytes) as (_ & _ & Hc & Hb).
  cbv zeta. split; [|exact Hb].
  unfold QImage.colorCount in *. now rewrite Hc.
Qed.

(** For an indexed picture with a palette the colour table has 256
    entries and the buffer holds exactly the picture's bytes. *)
Lemma loaded_image_indexed w pal im :
  pil_wf im -> truthy pal = true ->
  QImage.colorCount (loaded_image w pal im) = 256 /\
  QImage.bits (loaded_image w pal im) = tobytes im.
Proof.
  intros Hwf Hpal. unfold loaded_image. cbv zeta. rewrite Hpal.
  destruct Hwf as [Hw Hh Hlen Hbytes].
  rewrite create_positive by assumption.
  set (blank := QImage.mk _ _ _ _).
  pose proof (set_color_table_spec (take 768 (default [] pal)) blank)
    as (Hw0 & Hh0 & Hb0 & Hc0).
  apply copy_pixels_indexed.
  - now constructor.
  - exact Hw0.
  - exact Hh0.
  - unfold QImage.colorCount. rewrite Hc0. reflexivity.
  - rewrite Hb0. unfold blank. cbn [QImage.bits].
    rewrite length_map, length_seq. lia.
Qed.

(** ** What [save_image] computes *)

Lemma written_files_app a b :
  written_files (a ++ b) = written_files a ++ written_files b.
Proof. apply flat_map_app. Qed.

Lemma truthy_Some pal : truthy pal = true -> exists l, pal = Some l /\ l <> [].
Proof.
  destruct pal as [[|v l]|]; simpl; try discriminate.
  intros _. exists (v :: l). split; [reflexivity | discriminate].
Qed.

Lemma save_image_refused w path c :
  image c = None \/ truthy (original_palette c) = false ->
  save_image w path c = (Ok false, c, []).
Proof.
  intros H. unfold save_image. run_method.
  destruct (image c) as [img|]; [|reflexivity].
  destruct H as [H|H]; [discriminate|]. now rewrite H.
Qed.

Lemma save_image_written w path c img pal :
  image c = Some img -> original_palette c = Some pal -> pal <> [] ->
  writable w path = true ->
  save_image w path c
  = (Ok true, c,
     [SaveBMP path
        (Image_new_P (QImage.width img) (QImage.height img) pal
           (read_pixels img))]).
Proof.
  intros Himg Hpal Hne Hw. unfold save_image. run_method.
  rewrite Himg, Hpal, Hw.
  destruct pal as [|v l]; [congruence|]. reflexivity.
Qed.

Lemma save_image_io_error w path c img :
  image c = Some img -> truthy (original_palette c) = true ->
  writable w path = false ->
  save_image w path c = (Raise OSError, c, []).
Proof.
  intros Himg Hpal Hw. unfold save_image. run_method.
  now rewrite Himg, Hpal, Hw.
Qed.

(** Reading back a well-formed image. *)
Lemma read_pixels_wf img : QImage_wf img -> read_pixels img = QImage.bits img.
Proof.
  intros (Hw & Hh & Hlen).
  apply (read_pixels_spec (Z.to_nat (QImage.width img))
           (Z.to_nat (QImage.height img))); lia.
Qed.

(** ** A small document used to exercise the statements *)

Module Sample.
(** A 2x2 indexed picture with a two-colour palette. *)
Definition picture : PilImage :=
  mkPil "P" (Some [255; 0; 255; 200; 0; 200]) (2, 2) [0; 1; 1; 0].

(** A 2x1 true-colour picture and what [convert('P')] makes of it. *)
Definition photo : PilImage :=
  mkPil "RGB" None (2, 1) [9; 9; 9; 8; 8; 8].
Definition photo_P : PilImage :=
  mkPil "P" (Some [9; 9; 9; 8; 8; 8]) (2, 1) [0; 1].

Definition disk : world :=
  {| Image_open := fun path =>
       if String.eqb path "char0001.bmp" then Ok picture
       else if String.eqb path "char0002.bmp" then Ok photo
       else Raise OSError;
     convert_P := fun _ => Ok photo_P;
     heap := fun _ => 77;
     writable := fun _ => true |}.

Lemma picture_wf : pil_wf picture.
Proof.
  constructor; cbn; try lia.
  repeat constructor; unfold is_byte; lia.
Defined.
End Sample.

(** ** Round trip *)

(** X19. Round trip of an indexed file.  Decoding a well-formed file of
    mode 'P' that carries a palette with [load_image] and encoding the canvas
    again with [save_image], with no pixel write in between, writes a file
    whose palette table, size and row-major pixel-index array are those of
    the input; this holds for the canvas [load_image] leaves even when the
    widget could not take the size of the picture. *)
Theorem load_save_roundtrip w w' path out c im :
  Image_open w path = Ok im -> is_P im = true -> pil_wf im ->
  truthy (getpalette im) = true -> writable w' out = true ->
  let c' := state_of (load_image w path c) in
  exists saved,
    save_image w' out c' = (Ok true, c', [SaveBMP out saved]) /\
    getpalette saved = getpalette im /\
    tobytes saved = tobytes im /\
    size saved = size im /\
    (resizable c' = true ->
     result_of ((load_image w path ;; save_image w' out) c) = Ok true /\
     written_files (trace_of ((load_image w path ;; save_image w' out) c))
     = [(out, saved)]).
Proof.
  intros Hopen HP Hwf Hpal Hw c'.
  destruct (truthy_Some _ Hpal) as (pal & Epal & Hne).
  destruct (loaded_image_indexed w (getpalette im) im Hwf Hpal) as (_ & Hbits).
  destruct (loaded_image_dims w (getpalette im) im (wf_width _ Hwf)
              (wf_height _ Hwf)) as (Hwd & Hht).
  pose proof (load_image_indexed w path c im Hopen HP) as Eload.
  assert (Ec' : c' = loaded_canvas w (getpalette im) im c)
    by (unfold c'; now rewrite Eload, resize_state).
  assert (Hheld : original_palette c' = Some pal) by (rewrite Ec'; exact Epal).
  assert (Himg : image c' = Some (loaded_image w (getpalette im) im))
    by (now rewrite Ec').
  pose proof (save_image_written w' out c' _ pal Himg Hheld Hne Hw) as Esave.
  unfold Image_new_P in Esave.
  rewrite read_pixels_wf, Hbits, Hwd, Hht in Esave by apply loaded_image_wf.
  eexists. split; [exact Esave|]. cbn [getpalette tobytes size].
  split; [now rewrite Epal|]. split; [reflexivity|].
  split; [now destruct (size im)|].
  intros Hfit. unfold bind. rewrite Eload, <- Ec', (resize_ok c' Hfit), Esave.
  unfold result_of, trace_of. cbn [fst snd].
  rewrite written_files_app.
  split; [reflexivity|].
  now destruct (image c').
Qed.

Lemma load_save_roundtrip_witness :
  exists saved,
    save_image Sample.disk "char0001.bmp"
      (state_of (load_image Sample.disk "char0001.bmp" Canvas_init))
    = (Ok true, state_of (load_image Sample.disk "char0001.bmp" Canvas_init),
       [SaveBMP "char0001.bmp" saved]) /\
    tobytes saved = tobytes Sample.picture.
Proof.
  destruct (load_save_roundtrip Sample.disk Sample.disk "char0001.bmp"
              "char0001.bmp" Canvas_init Sample.picture
              eq_refl eq_refl Sample.picture_wf eq_refl eq_refl)
    as (saved & H1 & _ & H2 & _).
  exists saved. split; [exact H1 | exact H2].
Defined.

(** ** Glyph height *)

(** The picture [load_image] works on: the opened one when it is indexed,
    its conversion otherwise. *)
Definition decode (w : world) (path : string) : outcome PilImage :=
  match Image_open w path with
  | Ok im => if is_P im then Ok im else convert_P w im
  | Raise e => Raise e
  end.

(** The palette held once [load_image] has run. *)
Definition palette_after (w : world) (path : string) (c : Canvas)
  : option (list Z) :=
  match Image_open w path with
  | Ok im => if is_P im then getpalette im else original_palette c
  | Raise _ => original_palette c
  end.

(** The rule of the specification: a table of four heights, otherwise
    [height // 256], replaced by 8 when that quotient is not positive. *)
Definition glyph_height_spec (height : Z) : Z :=
  match height with
  | 2048 => 8
  | 2259 => 9
  | 3390 => 15
  | 3584 => 14
  | _ => if height / 256 <=? 0 then 8 else height / 256
  end.

Lemma load_image_decoded w path c im :
  decode w path = Ok im ->
  load_image w path c = resize (loaded_canvas w (palette_after w path c) im c).
Proof.
  unfold decode, palette_after. intros Hdec.
  destruct (Image_open w path) as [im0|e] eqn:Hopen; [|discriminate].
  destruct (is_P im0) eqn:HP.
  - injection Hdec as ->. now apply load_image_indexed.
  - now apply load_image_converted with (im := im0).
Qed.

Lemma load_image_fails w path c e :
  decode w path = Raise e -> load_image w path c = (Raise e, c, []).
Proof.
  unfold decode. intros Hdec.
  destruct (Image_open w path) as [im0|e0] eqn:Hopen.
  - destruct (is_P im0) eqn:HP; [discriminate|].
    now apply load_image_convert_fails with (im := im0).
  - injection Hdec as ->. now apply load_image_open_fails.
Qed.

Lemma detect_char_height_spec height :
  detect_char_height height = glyph_height_spec height /\
  1 <= detect_char_height height.
Proof.
  unfold detect_char_height, glyph_height_spec.
  destruct (Z.eqb_spec height 2048) as [->|H1]; [split; [reflexivity|lia]|].
  destruct (Z.eqb_spec height 2259) as [->|H2]; [split; [reflexivity|lia]|].
  destruct (Z.eqb_spec height 3390) as [->|H3]; [split; [reflexivity|lia]|].
  destruct (Z.eqb_spec height 3584) as [->|H4]; [split; [reflexivity|lia]|].
  cbv zeta.
  assert (Hrest : match height with
                  | 2048 => 8 | 2259 => 9 | 3390 => 15 | 3584 => 14
                  | _ => if height / 256 <=? 0 then 8 else height / 256
                  end = if height / 256 <=? 0 then 8 else height / 256).
  { destruct height as [|p|p]; try reflexivity.
    repeat (destruct p as [p|p|]; try reflexivity; try lia). }
  rewrite Hrest.
  destruct (Z.ltb_spec (height / 256) 1), (Z.leb_spec (height / 256) 0);
    split; lia.
Qed.

(** [load_character] when the file decodes and the widget takes its size. *)
Lemma load_character_opened w path index e im :
  decode w path = Ok im ->
  let c' := loaded_canvas w (palette_after w path (canvas e)) im (canvas e) in
  let img := loaded_image w (palette_after w path (canvas e)) im in
  let ch := detect_char_height (snd (size im)) in
  resizable c' = true ->
  load_character w path index e
  = (Ok tt, mkEditor (Some path) (Some index) c',
     [SetFixedSize (QImage.width img * zoom_level (canvas e))
                   (QImage.height img * zoom_level (canvas e));
      Update; InfoLabel ch (QImage.height img / ch)]).
Proof.
  intros Hdec c' img ch Hfit.
  destruct (detect_char_height_spec (snd (size im))) as (_ & Hpos).
  unfold load_character. unfold bind at 1. unfold modify.
  unfold try_except. unfold bind at 1. unfold on_canvas at 1.
  cbn [canvas current_file current_index].
  rewrite (load_image_decoded w path (canvas e) im Hdec).
  fold c'. rewrite (resize_ok c' Hfit).
  unfold bind, get. cbn [canvas image c' loaded_canvas with_image char_height
                          with_char_height with_original_palette zoom_level].
  unfold floordiv. fold ch.
  destruct (Z.eqb_spec ch 0) as [E|_]; [unfold ch in E; lia|].
  unfold ret, emit. reflexivity.
Qed.

(** [load_character] when the file decodes but the widget cannot take the
    size of the zoomed picture: the image, the palette and the glyph height are
    already set when [update_size] raises, and the exception is shown. *)
Lemma load_character_overflow w path index e im :
  decode w path = Ok im ->
  let c' := loaded_canvas w (palette_after w path (canvas e)) im (canvas e) in
  resizable c' = false ->
  load_character w path index e
  = (Ok tt, mkEditor (Some path) (Some index) c',
     [MessageBox Critical "Load Error"]).
Proof.
  intros Hdec c' Hfit.
  unfold load_character. unfold bind at 1. unfold modify.
  unfold try_except. unfold bind at 1. unfold on_canvas at 1.
  cbn [canvas current_file current_index].
  rewrite (load_image_decoded w path (canvas e) im Hdec).
  fold c'. rewrite (resize_overflow c' Hfit). reflexivity.
Qed.

(** In both cases the document is on the canvas. *)
Lemma load_character_state w path index e im :
  decode w path = Ok im ->
  let c' := loaded_canvas w (palette_after w path (canvas e)) im (canvas e) in
  exists tr,
    load_character w path index e
    = (Ok tt, mkEditor (Some path) (Some index) c', tr) /\
    written_files tr = [] /\ paint_signals tr = [].
Proof.
  intros Hdec c'. destruct (resizable c') eqn:Hfit.
  - rewrite (load_character_opened w path index e im Hdec Hfit).
    now eexists.
  - rewrite (load_character_overflow w path index e im Hdec Hfit).
    now eexists.
Qed.

(** C2. The glyph height set by loading a picture depends on the picture's
    height only: 2048 gives 8, 2259 gives 9, 3390 gives 15, 3584 gives 14,
    any other height gives [height // 256], replaced by 8 when that is not
    positive; the glyph count shown (info label and overlay) is
    [height // charHeight].  The info label is set when [load_image]
    returns; when the widget cannot take the size of the zoomed picture the
    load error is shown instead, the glyph height being set all the same. *)
Theorem glyph_height_inference w path index e im :
  decode w path = Ok im -> 0 < fst (size im) -> 0 < snd (size im) ->
  show_char_indices (canvas e) = true ->
  let r := load_character w path index e in
  let c' := canvas (state_of r) in
  let h := snd (size im) in
  char_height c' = glyph_height_spec h /\
  (if resizable c'
   then In (InfoLabel (glyph_height_spec h) (h / glyph_height_spec h))
           (trace_of r)
   else trace_of r = [MessageBox Critical "Load Error"]) /\
  overlay_num_chars c' = Some (h / glyph_height_spec h) /\
  (detect_char_height 2048 = 8 /\ 2048 / detect_char_height 2048 = 256) /\
  (detect_char_height 2259 = 9 /\ 2259 / detect_char_height 2259 = 251) /\
  (detect_char_height 3390 = 15 /\ 3390 / detect_char_height 3390 = 226) /\
  (detect_char_height 3584 = 14 /\ 3584 / detect_char_height 3584 = 256) /\
  (100 / 256 = 0 /\ detect_char_height 100 = 8).
Proof.
  intros Hdec Hw Hh Hshow r c' h.
  set (c1 := loaded_canvas w (palette_after w path (canvas e)) im (canvas e)).
  destruct (detect_char_height_spec h) as (Hspec & Hpos).
  destruct (loaded_image_dims w (palette_after w path (canvas e)) im Hw Hh)
    as (_ & Hht).
  assert (Hc' : c' = c1).
  { destruct (load_character_state w path index e im Hdec) as (tr & E & _).
    unfold c', r. now rewrite E. }
  rewrite Hc'. rewrite <- Hspec.
  split; [reflexivity|]. split; [|split].
  - destruct (resizable c1) eqn:Hfit; unfold r.
    + rewrite (load_character_opened w path index e im Hdec Hfit).
      unfold trace_of. cbn [snd]. rewrite Hht. fold h. cbn; auto.
    + now rewrite (load_character_overflow w path index e im Hdec Hfit).
  - unfold overlay_num_chars, c1, loaded_canvas.
    cbn [image with_image show_char_indices char_height with_char_height
         with_original_palette].
    rewrite Hshow, Hht. fold h.
    destruct (Z.ltb_spec 0 (detect_char_height h)); [reflexivity | lia].
  - repeat split; reflexivity.
Qed.

Lemma glyph_height_inference_witness :
  let r := load_character Sample.disk "char0001.bmp" 1 Editor_init in
  char_height (canvas (state_of r)) = glyph_height_spec 2.
Proof.
  pose proof (glyph_height_inference Sample.disk "char0001.bmp" 1 Editor_init
                Sample.picture eq_refl ltac:(cbn; lia) ltac:(cbn; lia) eq_refl)
    as (H1 & _).
  exact H1.
Defined.

(** ** Painting *)

(** The cell a position falls in, as [draw_pixel] computes it. *)
Definition cell_of (pos : Z * Z) (zoom : Z) : Z * Z :=
  (fst pos / zoom, snd pos / zoom).

Lemma pointer_to_cell_eq pos zoom c :
  zoom <> 0 -> pointer_to_cell pos zoom c = (Ok (cell_of pos zoom), c, []).
Proof.
  intros Hz. unfold pointer_to_cell, floordiv, cell_of. run_method.
  destruct (Z.eqb_spec zoom 0); [contradiction|]. reflexivity.
Qed.

Lemma draw_pixel_no_image pos c :
  image c = None -> draw_pixel pos c = (Ok tt, c, []).
Proof. intros H. unfold draw_pixel. run_method. now rewrite H. Qed.


Lemma draw_pixel_outside pos c img :
  image c = Some img -> zoom_level c <> 0 ->
  QImage.valid img (fst (cell_of pos (zoom_level c)))
                   (snd (cell_of pos (zoom_level c))) = false ->
  draw_pixel pos c = (Ok tt, c, []).
Proof.
  intros Himg Hz Hout. unfold draw_pixel. unfold bind at 1. unfold get.
  rewrite Himg. unfold bind.
  rewrite (pointer_to_cell_eq pos (zoom_level c) c Hz).
  unfold QImage.valid in Hout. rewrite Hout. reflexivity.
Qed.

Lemma draw_pixel_inside pos c img :
  image c = Some img -> zoom_level c <> 0 ->
  QImage.valid img (fst (cell_of pos (zoom_level c)))
                   (snd (cell_of pos (zoom_level c))) = true ->
  0 <= current_color_index c <= 4294967295 ->
  let x := fst (cell_of pos (zoom_level c)) in
  let y := snd (cell_of pos (zoom_level c)) in
  draw_pixel pos c
  = (Ok tt,
     with_image (Some (QImage.setPixel x y (current_color_index c) img)) c,
     [Update; PixelChanged x y (wrap_int (current_color_index c))]).
Proof.
  intros Himg Hz Hin Hci x y. unfold draw_pixel. unfold bind at 1. unfold get.
  rewrite Himg. unfold bind at 1.
  rewrite (pointer_to_cell_eq pos (zoom_level c) c Hz).
  unfold QImage.valid in Hin. rewrite Hin.
  unfold as_uint.
  destruct (Z.ltb_spec (current_color_index c) 0); [lia|].
  destruct (Z.ltb_spec 4294967295 (current_color_index c)); [lia|].
  cbn [orb]. run_method. rewrite Himg. reflexivity.
Qed.

(** *** Reading a pixel after a write *)

Lemma valid_bounds img x y :
  QImage.valid img x y = true <->
  0 <= x < QImage.width img /\ 0 <= y < QImage.height img.
Proof.
  unfold QImage.valid. rewrite !andb_true_iff, !Z.leb_le, !Z.ltb_lt. lia.
Qed.

Lemma offset_inj img x y x' y' :
  QImage.valid img x y = true -> QImage.valid img x' y' = true ->
  QImage.offset img x y = QImage.offset img x' y' -> x = x' /\ y = y'.
Proof.
  rewrite !valid_bounds. unfold QImage.offset. intros Hv Hv' Heq.
  assert (Hz : y * QImage.width img + x = y' * QImage.width img + x') by nia.
  assert (Hy : y = y') by nia. subst y'. lia.
Qed.

Lemma offset_in_range img x y :
  QImage_wf img -> QImage.valid img x y = true ->
  (QImage.offset img x y < length (QImage.bits img))%nat.
Proof.
  intros (Hw & Hh & Hlen). rewrite valid_bounds. unfold QImage.offset.
  intros Hv. nia.
Qed.

Lemma setPixel_valid x y v img x' y' :
  QImage.valid (QImage.setPixel x y v img) x' y' = QImage.valid img x' y'.
Proof.
  destruct (setPixel_shape x y v img) as (Hw & Hh & _).
  unfold QImage.valid. now rewrite Hw, Hh.
Qed.

Lemma pixelIndex_setPixel_same img x y v :
  QImage_wf img -> QImage.valid img x y = true ->
  0 <= v < QImage.colorCount img ->
  QImage.pixelIndex (QImage.setPixel x y v img) x y = v.
Proof.
  intros Hwf Hv Hc. unfold QImage.pixelIndex. rewrite setPixel_valid, Hv.
  unfold QImage.setPixel. rewrite Hv. cbn [negb].
  destruct (Z.leb_spec (QImage.colorCount img) v); [lia|].
  unfold QImage.offset at 1. cbn [QImage.width QImage.bits].
  fold (QImage.offset img x y).
  rewrite list_lookup_insert_eq by now apply offset_in_range.
  reflexivity.
Qed.

Lemma pixelIndex_setPixel_other img x y v x' y' :
  (x', y') <> (x, y) ->
  QImage.pixelIndex (QImage.setPixel x y v img) x' y'
  = QImage.pixelIndex img x' y'.
Proof.
  intros Hne. unfold QImage.pixelIndex. rewrite setPixel_valid.
  destruct (QImage.valid img x' y') eqn:Hv'; [|reflexivity].
  unfold QImage.setPixel.
  destruct (QImage.valid img x y) eqn:Hv; [|reflexivity]. cbn [negb].
  destruct (QImage.colorCount img <=? v); [reflexivity|].
  unfold QImage.offset at 1. cbn [QImage.width QImage.bits].
  fold (QImage.offset img x' y').
  rewrite list_lookup_insert_ne; [reflexivity|].
  intros Heq. apply Hne.
  destruct (offset_inj img x y x' y' Hv Hv' Heq) as (-> & ->). reflexivity.
Qed.

(** The canvas once the sample picture is open: magenta and a darker
    magenta, then 254 black entries; the four pixels of the picture. *)
Definition sample_image : QImage.t :=
  QImage.mk 2 2 (4294902015 :: 4291297480 :: replicate 254 4278190080)
    [0; 1; 1; 0].

Definition sample_canvas : Canvas :=
  mkCanvas (Some sample_image) (Some [255; 0; 255; 200; 0; 200]) 20 true 1
    false 8 true (-1).

Lemma sample_canvas_loaded :
  load_image Sample.disk "char0001.bmp" Canvas_init
  = (Ok tt, sample_canvas, [SetFixedSize 40 40; Update]).
Proof. vm_compute. reflexivity. Qed.

Lemma sample_image_facts :
  QImage_wf sample_image /\ QImage.colorCount sample_image = 256.
Proof. vm_compute. repeat split; discriminate. Qed.

(** C7. For a non-negative pointer position and a positive zoom the cell is
    [(px // zoom, py // zoom)]: the quotient truncated toward zero, with no
    rounding; the pointer (103, 47) at zoom 20 is in cell (5, 2). *)
Theorem pointer_to_cell_truncates px py zoom c :
  0 <= px -> 0 <= py -> 0 < zoom ->
  pointer_to_cell (px, py) zoom c
  = (Ok (Z.quot px zoom, Z.quot py zoom), c, []) /\
  (zoom * Z.quot px zoom <= px < zoom * (Z.quot px zoom + 1)) /\
  (zoom * Z.quot py zoom <= py < zoom * (Z.quot py zoom + 1)) /\
  pointer_to_cell (103, 47) 20 c = (Ok (5, 2), c, []).
Proof.
  intros Hx Hy Hz.
  rewrite pointer_to_cell_eq by lia. unfold cell_of. cbn [fst snd].
  rewrite !Z.quot_div_nonneg by lia.
  pose proof (Z.mul_div_le px zoom Hz).
  pose proof (Z.mul_succ_div_gt px zoom Hz).
  pose proof (Z.mul_div_le py zoom Hz).
  pose proof (Z.mul_succ_div_gt py zoom Hz).
  repeat split; lia.
Qed.

Lemma pointer_to_cell_truncates_witness :
  pointer_to_cell (103, 47) 20 Canvas_init
  = (Ok (Z.quot 103 20, Z.quot 47 20), Canvas_init, []).
Proof.
  exact (proj1 (pointer_to_cell_truncates 103 47 20 Canvas_init
                  ltac:(lia) ltac:(lia) ltac:(lia))).
Defined.

(** C4. A paint operation whose cell lies outside the grid changes no
    cell (the whole canvas is as before), emits no signal and raises no
    error. *)
Theorem paint_out_of_bounds pos c img x y :
  image c = Some img -> zoom_level c <> 0 ->
  cell_of pos (zoom_level c) = (x, y) ->
  ~ (0 <= x < QImage.width img) \/ ~ (0 <= y < QImage.height img) ->
  draw_pixel pos c = (Ok tt, c, []).
Proof.
  intros Himg Hz Hcell Hout.
  apply draw_pixel_outside with (img := img); try assumption.
  rewrite Hcell. cbn [fst snd].
  destruct (QImage.valid img x y) eqn:Hv; [|reflexivity].
  apply valid_bounds in Hv. tauto.
Qed.

Lemma paint_out_of_bounds_witness :
  draw_pixel (45, -3) sample_canvas = (Ok tt, sample_canvas, []).
Proof.
  apply (paint_out_of_bounds (45, -3) sample_canvas sample_image 2 (-1));
    [reflexivity | discriminate | reflexivity | right; lia].
Defined.

(** A colour index that is a C [int] is carried by the signal as it is. *)
Lemma wrap_int_small v : 0 <= v <= 2147483647 -> wrap_int v = v.
Proof. intros Hv. unfold wrap_int. rewrite Z.mod_small; lia. Qed.

(** The canvas after the true-colour sample file was opened on a new
    canvas: no colour table, and the pixels the allocation held. *)
Definition photo_canvas : Canvas :=
  with_image (Some (QImage.mk 2 1 [] [77; 77])) Canvas_init.

(** C8, as stated, fails: the colour index must be an entry of the image's
    colour table.  After the true-colour sample file is opened the table is
    empty, and painting with index 1 on the in-bounds cell (1, 0) emits the
    signal but leaves the cell at 77. *)
Lemma paint_any_index_counterexample :
  let r := run [ThumbnailClicked Sample.disk "char0002.bmp" 2;
                MousePress LeftButton (25, 5)] Editor_init in
  result_of r = Ok tt /\
  paint_signals (trace_of r) = [(1, 0, 1)] /\
  image (canvas (state_of r)) = image photo_canvas /\
  QImage.valid (QImage.mk 2 1 [] [77; 77]) 1 0 = true /\
  QImage.pixelIndex (QImage.mk 2 1 [] [77; 77]) 1 0 <> 1.
Proof. vm_compute. repeat split; discriminate. Qed.

(** C8, amended. A paint operation on an in-bounds cell [(x, y)] with a
    colour index that is an entry of the image's colour table sets exactly
    that cell to the index, leaves every other cell as it was, and emits one
    change signal carrying [(x, y, colorIndex)]. *)
Theorem paint_in_bounds pos c img x y :
  image c = Some img -> QImage_wf img -> zoom_level c <> 0 ->
  cell_of pos (zoom_level c) = (x, y) ->
  0 <= x < QImage.width img -> 0 <= y < QImage.height img ->
  0 <= current_color_index c < QImage.colorCount img ->
  QImage.colorCount img <= 256 ->
  exists img',
    draw_pixel pos c
    = (Ok tt, with_image (Some img') c,
       [Update; PixelChanged x y (current_color_index c)]) /\
    QImage.pixelIndex img' x y = current_color_index c /\
    (forall x' y', (x', y') <> (x, y) ->
       QImage.pixelIndex img' x' y' = QImage.pixelIndex img x' y') /\
    QImage.colortable img' = QImage.colortable img.
Proof.
  intros Himg Hwf Hz Hcell Hx Hy Hci Hmax.
  assert (Hv : QImage.valid img x y = true) by (apply valid_bounds; lia).
  exists (QImage.setPixel x y (current_color_index c) img).
  split; [|split; [|split]].
  - pose proof (draw_pixel_inside pos c img Himg Hz) as Hd.
    rewrite Hcell in Hd. cbn [fst snd] in Hd.
    rewrite wrap_int_small in Hd by lia. apply Hd; [assumption | lia].
  - now apply pixelIndex_setPixel_same.
  - intros x' y' Hne. now apply pixelIndex_setPixel_other.
  - now destruct (setPixel_shape x y (current_color_index c) img)
      as (_ & _ & Hc & _).
Qed.

Lemma paint_in_bounds_witness :
  QImage.pixelIndex sample_image 0 0 = 0 /\
  exists img',
    draw_pixel (5, 5) sample_canvas
    = (Ok tt, with_image (Some img') sample_canvas,
       [Update; PixelChanged 0 0 1]) /\
    QImage.pixelIndex img' 0 0 = 1.
Proof.
  split; [reflexivity|].
  destruct sample_image_facts as (Hwf & Hc).
  destruct (paint_in_bounds (5, 5) sample_canvas sample_image 0 0)
    as (img' & H1 & H2 & _);
    [reflexivity | exact Hwf | discriminate | reflexivity
    | cbn; lia | cbn; lia
    | rewrite Hc; cbn; lia
    | rewrite Hc; lia | ].
  exists img'. exact (conj H1 H2).
Defined.

(** ** Strokes *)

(** What painting needs from the canvas: a zoom that can divide and a
    colour index the binding accepts as an unsigned integer. *)
Definition can_paint (c : Canvas) : Prop :=
  zoom_level c <> 0 /\ 0 <= current_color_index c <= 4294967295.

(** The cell of a position lies on the image. *)
Definition on_image (img : QImage.t) (pos : Z * Z) (zoom : Z) : bool :=
  QImage.valid img (fst (cell_of pos zoom)) (snd (cell_of pos zoom)).

(** The image after painting the cell of [pos]. *)
Definition painted (pos : Z * Z) (c : Canvas) (img : QImage.t) : QImage.t :=
  QImage.setPixel (fst (cell_of pos (zoom_level c)))
    (snd (cell_of pos (zoom_level c))) (current_color_index c) img.

(** The signal of painting the cell of [pos]: the cell and the colour
    index as the signal carries it. *)
Definition signal_of (pos : Z * Z) (c : Canvas) : Z * Z * Z :=
  (fst (cell_of pos (zoom_level c)), snd (cell_of pos (zoom_level c)),
   wrap_int (current_color_index c)).

(** The redraw request of a move: only when the hover row changes. *)
Definition hover_update (pos : Z * Z) (c : Canvas) : list effect :=
  if hover_y c =? snd pos / zoom_level c then [] else [Update].

Lemma press_inside pos c img :
  image c = Some img -> can_paint c ->
  on_image img pos (zoom_level c) = true ->
  mousePressEvent LeftButton pos c
  = (Ok tt, with_image (Some (painted pos c img)) (with_drawing true c),
     [Update;
      PixelChanged (fst (cell_of pos (zoom_level c)))
        (snd (cell_of pos (zoom_level c))) (wrap_int (current_color_index c))]).
Proof.
  intros Himg (Hz & Hci) Hin. unfold mousePressEvent.
  unfold bind at 1. unfold get. rewrite Himg. cbn [is_left].
  unfold bind, modify.
  rewrite (draw_pixel_inside pos (with_drawing true c) img Himg Hz Hin Hci).
  reflexivity.
Qed.

Lemma press_outside pos c img :
  image c = Some img -> can_paint c ->
  on_image img pos (zoom_level c) = false ->
  mousePressEvent LeftButton pos c = (Ok tt, with_drawing true c, []).
Proof.
  intros Himg (Hz & Hci) Hout. unfold mousePressEvent.
  unfold bind at 1. unfold get. rewrite Himg. cbn [is_left].
  unfold bind, modify.
  rewrite (draw_pixel_outside pos (with_drawing true c) img Himg Hz Hout).
  reflexivity.
Qed.

Lemma press_other_button b pos c :
  is_left b = false -> mousePressEvent b pos c = (Ok tt, c, []).
Proof.
  intros Hb. unfold mousePressEvent. run_method. rewrite Hb.
  now destruct (image c).
Qed.

Lemma mouse_no_image c :
  image c = None ->
  (forall b pos, mousePressEvent b pos c = (Ok tt, c, [])) /\
  (forall pos, mouseMoveEvent pos c = (Ok tt, c, [])).
Proof.
  intros Himg. unfold mousePressEvent, mouseMoveEvent. run_method.
  rewrite Himg. split; reflexivity.
Qed.

Lemma move_drawing_inside pos c img :
  image c = Some img -> can_paint c -> drawing c = true ->
  on_image img pos (zoom_level c) = true ->
  mouseMoveEvent pos c
  = (Ok tt,
     with_image (Some (painted pos c img))
       (with_hover_y (snd pos / zoom_level c) c),
     hover_update pos c ++
     [Update;
      PixelChanged (fst (cell_of pos (zoom_level c)))
        (snd (cell_of pos (zoom_level c))) (wrap_int (current_color_index c))]).
Proof.
  intros Himg (Hz & Hci) Hd Hin. unfold mouseMoveEvent.
  unfold bind at 1. unfold get. rewrite Himg, Hd. unfold floordiv.
  destruct (Z.eqb_spec (zoom_level c) 0) as [E|_]; [contradiction|].
  unfold bind, ret, modify, update, emit, hover_update.
  destruct (hover_y c =? snd pos / zoom_level c); cbv beta iota;
    rewrite (draw_pixel_inside pos (with_hover_y (snd pos / zoom_level c) c)
               img Himg Hz Hin Hci);
    reflexivity.
Qed.

Lemma move_drawing_outside pos c img :
  image c = Some img -> can_paint c -> drawing c = true ->
  on_image img pos (zoom_level c) = false ->
  mouseMoveEvent pos c
  = (Ok tt, with_hover_y (snd pos / zoom_level c) c, hover_update pos c).
Proof.
  intros Himg (Hz & Hci) Hd Hout. unfold mouseMoveEvent.
  unfold bind at 1. unfold get. rewrite Himg, Hd. unfold floordiv.
  destruct (Z.eqb_spec (zoom_level c) 0) as [E|_]; [contradiction|].
  unfold bind, ret, modify, update, emit, hover_update.
  destruct (hover_y c =? snd pos / zoom_level c); cbv beta iota;
    rewrite (draw_pixel_outside pos (with_hover_y (snd pos / zoom_level c) c)
               img Himg Hz Hout);
    reflexivity.
Qed.

Lemma move_idle pos c img :
  image c = Some img -> zoom_level c <> 0 -> drawing c = false ->
  mouseMoveEvent pos c
  = (Ok tt, with_hover_y (snd pos / zoom_level c) c, hover_update pos c).
Proof.
  intros Himg Hz Hd. unfold mouseMoveEvent.
  unfold bind at 1. unfold get. rewrite Himg, Hd. unfold floordiv.
  destruct (Z.eqb_spec (zoom_level c) 0) as [E|_]; [contradiction|].
  unfold bind, ret, modify, update, emit, hover_update.
  destruct (hover_y c =? snd pos / zoom_level c); reflexivity.
Qed.

Lemma paint_signals_app a b :
  paint_signals (a ++ b) = paint_signals a ++ paint_signals b.
Proof. apply flat_map_app. Qed.

Lemma paint_signals_hover pos c : paint_signals (hover_update pos c) = [].
Proof. unfold hover_update. now destruct (_ =? _). Qed.






(** ** Saving *)

Lemma save_current_refused w e path :
  file_set (current_file e) = Some path ->
  image (canvas e) = None \/ truthy (original_palette (canvas e)) = false ->
  save_current w e
  = (Ok tt, mkEditor (current_file e) (current_index e) (canvas e),
     [MessageBox Critical "Save Error"]).
Proof.
  intros Hfile Hno. unfold save_current. unfold bind at 1. unfold get.
  rewrite Hfile. unfold try_except, bind, on_canvas.
  rewrite (save_image_refused w path (canvas e) Hno). reflexivity.
Qed.

(** C6. [save_image] reports failure (returns [False]) exactly when no
    image or no palette is held; it then writes no file and changes
    nothing, and [save_current] shows the failure as a save error. *)
Theorem save_fails_iff_no_palette w path c :
  (result_of (save_image w path c) = Ok false <->
   image c = None \/ truthy (original_palette c) = false) /\
  (image c = None \/ truthy (original_palette c) = false ->
   save_image w path c = (Ok false, c, []) /\
   forall e, canvas e = c -> file_set (current_file e) = Some path ->
     trace_of (save_current w e) = [MessageBox Critical "Save Error"] /\
     written_files (trace_of (save_current w e)) = []).
Proof.
  split.
  - split; [|intros H; now rewrite save_image_refused].
    intros H. destruct (image c) as [img|] eqn:Himg; [|now left].
    right. destruct (truthy (original_palette c)) eqn:Hpal; [|reflexivity].
    destruct (writable w path) eqn:Hw.
    + destruct (truthy_Some _ Hpal) as (pal & Epal & Hne).
      rewrite (save_image_written w path c img pal Himg Epal Hne Hw) in H.
      discriminate.
    + rewrite (save_image_io_error w path c img Himg Hpal Hw) in H.
      discriminate.
  - intros Hno. split; [now apply save_image_refused|].
    intros e <- Hfile.
    rewrite (save_current_refused w e path Hfile Hno). split; reflexivity.
Qed.

Lemma save_fails_iff_no_palette_witness :
  save_image Sample.disk "char0001.bmp" Canvas_init
  = (Ok false, Canvas_init, []).
Proof.
  exact (proj1 (proj2 (save_fails_iff_no_palette Sample.disk "char0001.bmp"
                         Canvas_init) (or_introl eq_refl))).
Defined.

(** ** Zoom *)

Lemma set_zoom_eq level c :
  set_zoom level c = resize (with_zoom_level level c).
Proof.
  unfold set_zoom. unfold bind at 1. unfold modify.
  rewrite resize_eq. now destruct (resize (with_zoom_level level c)) as [[r s] t].
Qed.

Lemma adjust_zoom_eq delta e :
  let c' := with_zoom_level
              (Z.max 5 (Z.min 50 (zoom_level (canvas e) + delta))) (canvas e) in
  adjust_zoom delta e
  = (result_of (resize c'),
     mkEditor (current_file e) (current_index e) c',
     trace_of (resize c')).
Proof.
  intros c'. unfold adjust_zoom. unfold bind, get, on_canvas.
  rewrite set_zoom_eq. fold c'.
  pose proof (resize_state c') as Hs.
  destruct (resize c') as [[r s] t]. cbn in Hs. subst s.
  now destruct r as [[]|x].
Qed.

(** C9, as stated, fails for [set_zoom] itself: it stores the level it is
    given, 100 as well as 0; the range 5..50 is enforced by its caller. *)
Lemma set_zoom_counterexample :
  result_of (set_zoom 100 sample_canvas) = Ok tt /\
  zoom_level (state_of (set_zoom 100 sample_canvas)) = 100 /\
  ~ (5 <= zoom_level (state_of (set_zoom 100 sample_canvas)) <= 50).
Proof. vm_compute. repeat split. intros (_ & H). now apply H. Qed.

(** C9, amended. A zoom request of the zoom buttons ([adjust_zoom]) is
    clamped to the range 5..50 before [set_zoom] stores it; [set_zoom]
    itself stores whatever level it is given.  Every zoom change leaves the
    grid as it is: the image (its pixel indices and colour table) and the held
    palette are unchanged, also when the widget cannot take the new size and
    [update_size] raises. *)
Theorem zoom_clamped_grid_unchanged delta e :
  let r := adjust_zoom delta e in
  let level := zoom_level (canvas (state_of r)) in
  level = Z.max 5 (Z.min 50 (zoom_level (canvas e) + delta)) /\
  5 <= level <= 50 /\
  image (canvas (state_of r)) = image (canvas e) /\
  original_palette (canvas (state_of r)) = original_palette (canvas e) /\
  (forall z c,
     zoom_level (state_of (set_zoom z c)) = z /\
     image (state_of (set_zoom z c)) = image c /\
     original_palette (state_of (set_zoom z c)) = original_palette c /\
     result_of (set_zoom z c)
     = if resizable (with_zoom_level z c) then Ok tt
       else Raise OverflowError).
Proof.
  intros r level. subst r level. rewrite adjust_zoom_eq.
  unfold state_of at 1 2 3 4. cbn [fst snd canvas zoom_level with_zoom_level
                                     image original_palette].
  split; [reflexivity|]. split; [lia|].
  split; [reflexivity|]. split; [reflexivity|].
  intros z c. rewrite set_zoom_eq, resize_state.
  repeat split. unfold resize.
  now destruct (resizable (with_zoom_level z c)).
Qed.

(** ** Opening a second file *)

(** C1 at its failing input: on a canvas that holds the palette of an
    indexed file, a true-colour file is decoded and encoded again with no
    pixel write in between.  Both steps succeed, and the palette written is
    neither that of the file read nor that of its conversion: it is the
    palette of the file opened before. *)
Theorem roundtrip_with_stale_palette :
  let r := (load_image Sample.disk "char0002.bmp" ;;
            save_image Sample.disk "char0002.bmp") sample_canvas in
  result_of (load_image Sample.disk "char0002.bmp" sample_canvas) = Ok tt /\
  result_of r = Ok true /\
  exists saved,
    written_files (trace_of r) = [("char0002.bmp"%string, saved)] /\
    getpalette saved = getpalette Sample.picture /\
    getpalette saved <> getpalette Sample.photo /\
    getpalette saved <> getpalette Sample.photo_P.
Proof.
  cbv zeta. split; [vm_compute; reflexivity|].
  split; [vm_compute; reflexivity|].
  exists (Image_new_P 2 1 [255; 0; 255; 200; 0; 200] [0; 1]).
  split; [vm_compute; reflexivity|]. repeat split; discriminate.
Qed.

(** C10 at its failing input: an indexed file is opened, then a true-colour
    file on the same canvas, then the document is saved.  The save succeeds
    and writes the second file with the palette of the first. *)
Theorem stale_palette_is_saved :
  let r := (load_image Sample.disk "char0001.bmp" ;;
            load_image Sample.disk "char0002.bmp" ;;
            save_image Sample.disk "char0002.bmp") Canvas_init in
  is_P Sample.photo = false /\
  result_of r = Ok true /\
  original_palette (state_of r) = getpalette Sample.picture /\
  written_files (trace_of r)
  = [("char0002.bmp"%string,
      Image_new_P 2 1 [255; 0; 255; 200; 0; 200] [0; 1])].
Proof. vm_compute. repeat split. Qed.

(** ** What painting never touches *)

(** The image is still there, with the size and the colour table it had. *)
Definition image_kept (a b : option QImage.t) : Prop :=
  match a, b with
  | Some x, Some y => same_shape y x
  | None, None => True
  | _, _ => False
  end.

(** What a stroke and the drawing controls leave as they found it. *)
Record stroke_frame (c c' : Canvas) : Prop := {
  sf_palette : original_palette c' = original_palette c;
  sf_char_height : char_height c' = char_height c;
  sf_image : image_kept (image c) (image c');
  sf_can_paint : can_paint c'
}.

(** A canvas method that always finishes, within the frame, writing no
    file. *)
Definition paints (m : M Canvas unit) : Prop :=
  forall c, can_paint c ->
  exists c' tr, m c = (Ok tt, c', tr) /\ stroke_frame c c' /\
                written_files tr = [].

Lemma written_files_hover pos c : written_files (hover_update pos c) = [].
Proof. unfold hover_update. now destruct (_ =? _). Qed.

Lemma image_kept_refl a : image_kept a a.
Proof. destruct a; [apply same_shape_refl | exact I]. Qed.

Lemma image_kept_trans a b c :
  image_kept a b -> image_kept b c -> image_kept a c.
Proof.
  destruct a, b, c; cbn; try tauto.
  intros H1 H2. eapply same_shape_trans; eassumption.
Qed.

Lemma stroke_frame_refl c : can_paint c -> stroke_frame c c.
Proof. intros H. split; auto using image_kept_refl. Qed.

Lemma stroke_frame_trans a b c :
  stroke_frame a b -> stroke_frame b c -> stroke_frame a c.
Proof.
  intros [P1 H1 I1 _] [P2 H2 I2 C2]. split; try congruence.
  eapply image_kept_trans; eassumption.
Qed.

Lemma image_kept_painted pos c img :
  image_kept (Some img) (Some (painted pos c img)).
Proof. apply setPixel_shape. Qed.

Lemma draw_pixel_paints pos : paints (draw_pixel pos).
Proof.
  intros c Hcp. destruct (image c) as [img|] eqn:Himg.
  - destruct Hcp as (Hz & Hci).
    destruct (on_image img pos (zoom_level c)) eqn:Hin.
    + rewrite (draw_pixel_inside pos c img Himg Hz Hin Hci).
      do 2 eexists. split; [reflexivity|]. split; [|reflexivity].
      split; try reflexivity; [|split; assumption].
      cbn [image with_image]. rewrite Himg. apply image_kept_painted.
    + rewrite (draw_pixel_outside pos c img Himg Hz Hin).
      do 2 eexists. split; [reflexivity|]. split; [|reflexivity].
      apply stroke_frame_refl. split; assumption.
  - rewrite (draw_pixel_no_image pos c Himg).
    do 2 eexists. split; [reflexivity|]. split; [|reflexivity].
    now apply stroke_frame_refl.
Qed.

Lemma mousePressEvent_paints b pos : paints (mousePressEvent b pos).
Proof.
  intros c Hcp. destruct (image c) as [img|] eqn:Himg.
  - destruct b.
    + destruct (on_image img pos (zoom_level c)) eqn:Hin.
      * rewrite (press_inside pos c img Himg Hcp Hin).
        do 2 eexists. split; [reflexivity|]. split; [|reflexivity].
        split; try reflexivity; [|exact Hcp].
        cbn [image with_image]. rewrite Himg. apply image_kept_painted.
      * rewrite (press_outside pos c img Himg Hcp Hin).
        do 2 eexists. split; [reflexivity|]. split; [|reflexivity].
        split; try reflexivity; [|exact Hcp].
        cbn [image with_drawing]. apply image_kept_refl.
    + rewrite press_other_button by reflexivity.
      do 2 eexists. split; [reflexivity|]. split; [|reflexivity].
      now apply stroke_frame_refl.
    + rewrite press_other_button by reflexivity.
      do 2 eexists. split; [reflexivity|]. split; [|reflexivity].
      now apply stroke_frame_refl.
  - rewrite (proj1 (mouse_no_image c Himg)).
    do 2 eexists. split; [reflexivity|]. split; [|reflexivity].
    now apply stroke_frame_refl.
Qed.

Lemma mouseMoveEvent_paints pos : paints (mouseMoveEvent pos).
Proof.
  intros c Hcp. destruct (image c) as [img|] eqn:Himg.
  - destruct (drawing c) eqn:Hd.
    + destruct (on_image img pos (zoom_level c)) eqn:Hin.
      * rewrite (move_drawing_inside pos c img Himg Hcp Hd Hin).
        do 2 eexists. split; [reflexivity|]. split.
        -- split; try reflexivity; [|exact Hcp].
           cbn [image with_image]. rewrite Himg. apply image_kept_painted.
        -- now rewrite written_files_app, written_files_hover.
      * rewrite (move_drawing_outside pos c img Himg Hcp Hd Hin).
        do 2 eexists. split; [reflexivity|]. split.
        -- split; try reflexivity; [|exact Hcp].
           cbn [image with_hover_y]. apply image_kept_refl.
        -- apply written_files_hover.
    + rewrite (move_idle pos c img Himg (proj1 Hcp) Hd).
      do 2 eexists. split; [reflexivity|]. split.
      * split; try reflexivity; [|exact Hcp].
        cbn [image with_hover_y]. apply image_kept_refl.
      * apply written_files_hover.
  - rewrite (proj2 (mouse_no_image c Himg)).
    do 2 eexists. split; [reflexivity|]. split; [|reflexivity].
    now apply stroke_frame_refl.
Qed.

Lemma mouseReleaseEvent_paints b : paints (mouseReleaseEvent b).
Proof.
  intros c Hcp. unfold mouseReleaseEvent, modify, ret.
  destruct (is_left b); do 2 eexists;
    (split; [reflexivity|]; split; [|reflexivity]).
  - split; try reflexivity; [|exact Hcp].
    cbn [image with_drawing]. apply image_kept_refl.
  - now apply stroke_frame_refl.
Qed.

Lemma set_color_paints index :
  0 <= index <= 4294967295 -> paints (set_color index).
Proof.
  intros Hi c (Hz & Hci). unfold set_color, modify.
  do 2 eexists. split; [reflexivity|]. split; [|reflexivity].
  split; try reflexivity; [|split; assumption].
  cbn [image with_current_color_index]. apply image_kept_refl.
Qed.

(** *** The zoom buttons, which can fail *)

(** How a handler of the user interface can end. *)
Definition ok_or_overflow (r : outcome unit) : Prop :=
  r = Ok tt \/ r = Raise OverflowError.

(** The open picture is small enough for the widget at every zoom the
    buttons can set (50 at most): 42949672 * 50 is still a C [int]. *)
Definition zoomable (c : Canvas) : Prop :=
  match image c with
  | Some img =>
      0 <= QImage.width img <= 42949672 /\
      0 <= QImage.height img <= 42949672
  | None => True
  end.

Lemma resizable_zoomable c level :
  zoomable c -> 5 <= level <= 50 -> resizable (with_zoom_level level c) = true.
Proof.
  unfold zoomable, resizable. cbn [image zoom_level with_zoom_level].
  destruct (image c) as [img|]; [|reflexivity].
  intros ((Hw0 & Hw1) & (Hh0 & Hh1)) Hl. unfold fits_int.
  rewrite !andb_true_iff, !Z.leb_le. nia.
Qed.

Lemma zoomable_kept c c' :
  image_kept (image c) (image c') -> zoomable c -> zoomable c'.
Proof.
  unfold zoomable, image_kept.
  destruct (image c), (image c'); try tauto.
  intros (Hw & Hh & _). now rewrite Hw, Hh.
Qed.

Lemma resize_result c : ok_or_overflow (result_of (resize c)).
Proof. unfold resize. destruct (resizable c); [now left | now right]. Qed.

Lemma resize_writes_nothing c : written_files (trace_of (resize c)) = [].
Proof.
  unfold resize. destruct (resizable c); [|reflexivity].
  now destruct (image c).
Qed.

(** The same frame for the editor: the file being edited stays the same. *)
Record session_frame (e e' : Editor) : Prop := {
  ef_file : current_file e' = current_file e;
  ef_index : current_index e' = current_index e;
  ef_canvas : stroke_frame (canvas e) (canvas e')
}.

Lemma session_frame_refl e : can_paint (canvas e) -> session_frame e e.
Proof. intros H. split; auto using stroke_frame_refl. Qed.

Lemma session_frame_trans a b c :
  session_frame a b -> session_frame b c -> session_frame a c.
Proof.
  intros [F1 I1 C1] [F2 I2 C2]. split; try congruence.
  eapply stroke_frame_trans; eassumption.
Qed.

(** A handler within the frame: it writes no file, and it returns unless a
    widget size overflowed, which cannot happen on a zoomable canvas. *)
Definition framed (e : Editor) (r : outcome unit * Editor * list effect)
  : Prop :=
  session_frame e (state_of r) /\ written_files (trace_of r) = [] /\
  ok_or_overflow (result_of r) /\
  (zoomable (canvas e) -> result_of r = Ok tt).

Lemma on_canvas_paints m e :
  paints m -> can_paint (canvas e) ->
  result_of (on_canvas m e) = Ok tt /\ framed e (on_canvas m e).
Proof.
  intros Hm Hcp. destruct (Hm (canvas e) Hcp) as (c' & tr & E & Hf & Hw).
  unfold on_canvas, framed. rewrite E.
  unfold result_of, state_of, trace_of. cbn [fst snd].
  split; [reflexivity|]. split; [split; try reflexivity; exact Hf|].
  split; [exact Hw|]. split; [now left | reflexivity].
Qed.

Lemma adjust_zoom_framed delta e :
  can_paint (canvas e) -> framed e (adjust_zoom delta e).
Proof.
  intros (Hz & Hci). rewrite adjust_zoom_eq. unfold framed.
  unfold state_of at 1. unfold trace_of at 1. unfold result_of at 1 3.
  cbn [fst snd].
  split; [|split; [apply resize_writes_nothing|split; [apply resize_result|]]].
  - split; try reflexivity. cbn [canvas].
    split; try reflexivity.
    + cbn [image with_zoom_level]. apply image_kept_refl.
    + split; [cbn [zoom_level with_zoom_level]; lia | exact Hci].
  - intros Hzoom. unfold resize.
    rewrite resizable_zoomable by (assumption || lia). reflexivity.
Qed.

Lemma handle_paint_event ev e :
  is_paint_event ev = true -> can_paint (canvas e) -> framed e (handle ev e).
Proof.
  intros Hev Hcp. destruct ev; try discriminate; cbn [handle].
  - now apply on_canvas_paints; [apply mousePressEvent_paints|].
  - now apply on_canvas_paints; [apply mouseMoveEvent_paints|].
  - now apply on_canvas_paints; [apply mouseReleaseEvent_paints|].
  - now apply adjust_zoom_framed.
  - now apply adjust_zoom_framed.
  - apply on_canvas_paints; [apply set_color_paints; lia | assumption].
  - apply on_canvas_paints; [apply set_color_paints; lia | assumption].
Qed.

Lemma run_paint_events evs : forall e,
  forallb is_paint_event evs = true -> can_paint (canvas e) ->
  framed e (run evs e).
Proof.
  induction evs as [|ev evs IH]; intros e Hevs Hcp.
  - unfold framed. cbn. split; [now apply session_frame_refl|].
    split; [reflexivity|]. split; [now left | reflexivity].
  - cbn [forallb] in Hevs. apply andb_true_iff in Hevs as (Hev & Hevs).
    destruct (handle_paint_event ev e Hev Hcp) as (F1 & W1 & R1 & Z1).
    cbn [run]. unfold bind.
    destruct (handle ev e) as [[res1 e1] t1].
    unfold result_of, state_of, trace_of in F1, W1, R1, Z1.
    cbn [fst snd] in F1, W1, R1, Z1.
    destruct R1 as [-> | ->].
    + destruct (IH e1 Hevs (sf_can_paint _ _ (ef_canvas _ _ F1)))
        as (F2 & W2 & R2 & Z2).
      destruct (run evs e1) as [[res2 e2] t2].
      unfold framed, result_of, state_of, trace_of in *. cbn [fst snd] in *.
      split; [eapply session_frame_trans; eassumption|].
      split; [now rewrite written_files_app, W1, W2|].
      split; [exact R2|].
      intros Hzoom. apply Z2.
      exact (zoomable_kept _ _ (sf_image _ _ (ef_canvas _ _ F1)) Hzoom).
    + unfold framed, result_of, state_of, trace_of. cbn [fst snd].
      split; [exact F1|]. split; [exact W1|]. split; [now right | exact Z1].
Qed.

Lemma run_app evs1 evs2 e :
  run (evs1 ++ evs2) e = (run evs1 ;; run evs2) e.
Proof.
  revert e. induction evs1 as [|ev evs1 IH]; intros e.
  - cbn [app run]. unfold bind, ret. now destruct (run evs2 e) as [[r s] t].
  - cbn [app run]. unfold bind.
    destruct (handle ev e) as [[[[]|x] s1] t1]; [|reflexivity].
    rewrite IH. unfold bind.
    destruct (run evs1 s1) as [[[[]|x] s2] t2]; [|reflexivity].
    destruct (run evs2 s2) as [[r s3] t3]. now rewrite app_assoc.
Qed.

Lemma save_current_written w e path img pal :
  file_set (current_file e) = Some path ->
  image (canvas e) = Some img -> original_palette (canvas e) = Some pal ->
  pal <> [] -> writable w path = true ->
  save_current w e
  = (Ok tt, mkEditor (current_file e) (current_index e) (canvas e),
     [SaveBMP path
        (Image_new_P (QImage.width img) (QImage.height img) pal
           (read_pixels img));
      MessageBox Information "Saved"; LoadWorkspace]).
Proof.
  intros Hfile Himg Hpal Hne Hw. unfold save_current.
  unfold bind at 1. unfold get. rewrite Hfile.
  unfold try_except, bind, on_canvas.
  rewrite (save_image_written w path (canvas e) img pal Himg Hpal Hne Hw).
  reflexivity.
Qed.

Lemma file_set_nonempty path :
  path <> EmptyString -> file_set (Some path) = Some path.
Proof. destruct path; [congruence | reflexivity]. Qed.

(** C5. The palette captured when a file is opened is never altered by
    painting: after any sequence of stroke events and drawing controls (any
    number of single-cell edits) the canvas still holds the palette of the
    opened file, every file written carries exactly that palette, and the save
    that ends the sequence writes one such file.  The sequence is cut short
    only when a zoom button asks for a widget size beyond a C [int], which a
    picture of at most 42949672 pixels a side excludes. *)
Theorem palette_preserved_by_painting w w' path index im evs e :
  Image_open w path = Ok im -> is_P im = true ->
  truthy (getpalette im) = true ->
  0 < fst (size im) -> 0 < snd (size im) ->
  path <> EmptyString -> can_paint (canvas e) ->
  forallb is_paint_event evs = true ->
  writable w' path = true ->
  let r := run (ThumbnailClicked w path index :: evs ++ [SaveClicked w']) e in
  original_palette (canvas (state_of r)) = getpalette im /\
  (forall file saved, In (file, saved) (written_files (trace_of r)) ->
     file = path /\ getpalette saved = getpalette im) /\
  (result_of r = Ok tt ->
   exists saved,
     written_files (trace_of r) = [(path, saved)] /\
     getpalette saved = getpalette im) /\
  (fst (size im) <= 42949672 -> snd (size im) <= 42949672 ->
   result_of r = Ok tt).
Proof.
  intros Hopen HP Hpal Hw Hh Hpath Hcp Hevs Hwr r.
  destruct (truthy_Some _ Hpal) as (pal & Epal & Hne).
  assert (Hdec : decode w path = Ok im)
    by (unfold decode; now rewrite Hopen, HP).
  assert (Hafter : palette_after w path (canvas e) = Some pal)
    by (unfold palette_after; now rewrite Hopen, HP).
  destruct (load_character_state w path index e im Hdec) as (t0 & E0 & W0 & _).
  rewrite Hafter in E0.
  set (e0 := mkEditor (Some path) (Some index) _) in E0.
  assert (Hcp0 : can_paint (canvas e0)) by exact Hcp.
  destruct (loaded_image_dims w (Some pal) im Hw Hh) as (Hwd & Hht).
  destruct (run_paint_events evs e0 Hevs Hcp0) as (F1 & W1 & R1 & Z1).
  destruct (run evs e0) as [[res1 e1] t1] eqn:E1.
  unfold result_of, state_of, trace_of in F1, W1, R1, Z1.
  cbn [fst snd] in F1, W1, R1, Z1.
  destruct F1 as [Ff Fi [Fp Fc Fimg Fcp]].
  assert (Hpal1 : original_palette (canvas e1) = Some pal)
    by (rewrite Fp; reflexivity).
  assert (Eload : run [ThumbnailClicked w path index] e = (Ok tt, e0, t0 ++ [])).
  { cbn [run handle]. unfold bind, ret. now rewrite E0. }
  destruct R1 as [-> | ->].
  - assert (Hfile : file_set (current_file e1) = Some path)
      by (rewrite Ff; now apply file_set_nonempty).
    destruct (image (canvas e1)) as [img1|] eqn:Himg1;
      [|cbn in Fimg; contradiction].
    pose proof (save_current_written w' e1 path img1 pal Hfile Himg1 Hpal1 Hne
                  Hwr) as E2.
    eassert (Erun' : r = (Ok tt, _, _)).
    { subst r.
      change (ThumbnailClicked w path index :: evs ++ [SaveClicked w'])
        with ([ThumbnailClicked w path index] ++ evs ++ [SaveClicked w']).
      rewrite run_app. unfold bind at 1. rewrite Eload.
      rewrite run_app. unfold bind at 1. rewrite E1.
      cbn [run handle]. unfold bind, ret. rewrite E2. reflexivity. }
    rewrite Erun'. unfold result_of, state_of, trace_of. cbn [fst snd canvas].
    rewrite !written_files_app, W0, W1. cbn [written_files flat_map app].
    split; [now rewrite Hpal1, Epal|]. split; [|split].
    + intros file saved [H|[]]. injection H as <- <-.
      cbn [Image_new_P getpalette]. now rewrite Epal.
    + intros _. eexists. split; [reflexivity|].
      cbn [Image_new_P getpalette]. now rewrite Epal.
    + reflexivity.
  - assert (Erun' : r = (Raise OverflowError, e1, (t0 ++ []) ++ t1)).
    { subst r.
      change (ThumbnailClicked w path index :: evs ++ [SaveClicked w'])
        with ([ThumbnailClicked w path index] ++ evs ++ [SaveClicked w']).
      rewrite run_app. unfold bind at 1. rewrite Eload.
      rewrite run_app. unfold bind at 1. rewrite E1. reflexivity. }
    rewrite Erun'. unfold result_of, state_of, trace_of. cbn [fst snd].
    rewrite !written_files_app, W0, W1. cbn [written_files flat_map app].
    split; [now rewrite Hpal1, Epal|]. split; [|split].
    + intros file saved [].
    + discriminate.
    + intros Hfw Hfh.
      assert (Hzoom : zoomable (canvas e0)).
      { unfold zoomable, e0. cbn [canvas image loaded_canvas with_image].
        rewrite Hwd, Hht. lia. }
      specialize (Z1 Hzoom). discriminate.
Qed.

Lemma palette_preserved_by_painting_witness :
  let r := run [ThumbnailClicked Sample.disk "char0001.bmp" 1;
                MousePress LeftButton (5, 5); MouseMove (5, 25);
                MouseRelease LeftButton; ZoomInClicked; Color0Clicked;
                MousePress LeftButton (30, 5);
                SaveClicked Sample.disk] Editor_init in
  original_palette (canvas (state_of r)) = getpalette Sample.picture.
Proof.
  assert (Hcp : can_paint (canvas Editor_init))
    by (split; [discriminate | cbn; lia]).
  assert (Hpath : "char0001.bmp"%string <> EmptyString) by discriminate.
  assert (Hw : 0 < fst (size Sample.picture)) by (cbn; lia).
  assert (Hh : 0 < snd (size Sample.picture)) by (cbn; lia).
  exact (proj1
           (palette_preserved_by_painting Sample.disk Sample.disk
              "char0001.bmp" 1 Sample.picture
              [MousePress LeftButton (5, 5); MouseMove (5, 25);
               MouseRelease LeftButton; ZoomInClicked; Color0Clicked;
               MousePress LeftButton (30, 5)]
              Editor_init eq_refl eq_refl eq_refl Hw Hh Hpath Hcp eq_refl
              eq_refl)).
Defined.

(** * Beyond the single operations *)

(** ** What [load_character] and [save_current] compute *)

Lemma load_character_failed w path index e ex :
  decode w path = Raise ex ->
  load_character w path index e
  = (Ok tt, mkEditor (Some path) (Some index) (canvas e),
     [MessageBox Critical "Load Error"]).
Proof.
  intros Hdec. unfold load_character. run_method.
  cbn [canvas current_file current_index].
  rewrite (load_image_fails w path (canvas e) ex Hdec). reflexivity.
Qed.

Lemma save_current_no_file w e :
  file_set (current_file e) = None ->
  save_current w e = (Ok tt, e, [MessageBox Warning "No File"]).
Proof.
  intros Hfile. unfold save_current, bind, get, emit. now rewrite Hfile.
Qed.

Lemma save_current_io_error w e path img :
  file_set (current_file e) = Some path ->
  image (canvas e) = Some img ->
  truthy (original_palette (canvas e)) = true ->
  writable w path = false ->
  save_current w e
  = (Ok tt, mkEditor (current_file e) (current_index e) (canvas e),
     [MessageBox Critical "Save Error"]).
Proof.
  intros Hfile Himg Hpal Hw. unfold save_current.
  unfold bind at 1. unfold get. rewrite Hfile.
  unfold try_except, bind, on_canvas.
  rewrite (save_image_io_error w path (canvas e) img Himg Hpal Hw).
  reflexivity.
Qed.

(** The fields no handler but the zoom and colour buttons writes. *)
Definition controls (c : Canvas) : Z * Z :=
  (zoom_level c, current_color_index c).

(** [save_current] always returns, leaving the document as it is. *)
Lemma save_current_total w e :
  exists e' tr,
    save_current w e = (Ok tt, e', tr) /\ canvas e' = canvas e /\
    current_file e' = current_file e /\ current_index e' = current_index e.
Proof.
  destruct (file_set (current_file e)) as [path|] eqn:Hfile.
  - destruct (image (canvas e)) as [img|] eqn:Himg.
    + destruct (truthy (original_palette (canvas e))) eqn:Hpal.
      * destruct (writable w path) eqn:Hw.
        -- destruct (truthy_Some _ Hpal) as (pal & Epal & Hne).
           rewrite (save_current_written w e path img pal Hfile Himg Epal Hne
                      Hw).
           do 2 eexists. repeat split.
        -- rewrite (save_current_io_error w e path img Hfile Himg Hpal Hw).
           do 2 eexists. repeat split.
      * rewrite (save_current_refused w e path Hfile (or_intror Hpal)).
        do 2 eexists. repeat split.
    + rewrite (save_current_refused w e path Hfile (or_introl Himg)).
      do 2 eexists. repeat split.
  - rewrite (save_current_no_file w e Hfile). do 2 eexists. repeat split.
Qed.

(** [load_character] always returns; it never touches the zoom or the
    colour index, and the glyph height it leaves is at least 1 when it
    was. *)
Lemma load_character_total w path index e :
  exists c' tr,
    load_character w path index e
    = (Ok tt, mkEditor (Some path) (Some index) c', tr) /\
    controls c' = controls (canvas e) /\
    (1 <= char_height (canvas e) -> 1 <= char_height c') /\
    written_files tr = [].
Proof.
  destruct (decode w path) as [im|ex] eqn:Hdec.
  - destruct (load_character_state w path index e im Hdec) as (tr & E & W & _).
    rewrite E. do 2 eexists. split; [reflexivity|].
    split; [reflexivity|]. split; [|exact W].
    intros _. apply detect_char_height_spec.
  - rewrite (load_character_failed w path index e ex Hdec).
    do 2 eexists. split; [reflexivity|]. repeat split. auto.
Qed.

(** The mouse handlers keep the zoom and the colour index. *)
Definition keeps_controls (m : M Canvas unit) : Prop :=
  forall c, can_paint c ->
  exists c' tr, m c = (Ok tt, c', tr) /\ controls c' = controls c.

Lemma mousePressEvent_controls b pos : keeps_controls (mousePressEvent b pos).
Proof.
  intros c Hcp. destruct (image c) as [img|] eqn:Himg.
  - destruct b.
    + destruct (on_image img pos (zoom_level c)) eqn:Hin.
      * rewrite (press_inside pos c img Himg Hcp Hin). now do 2 eexists.
      * rewrite (press_outside pos c img Himg Hcp Hin). now do 2 eexists.
    + rewrite press_other_button by reflexivity. now do 2 eexists.
    + rewrite press_other_button by reflexivity. now do 2 eexists.
  - rewrite (proj1 (mouse_no_image c Himg)). now do 2 eexists.
Qed.

Lemma mouseMoveEvent_controls pos : keeps_controls (mouseMoveEvent pos).
Proof.
  intros c Hcp. destruct (image c) as [img|] eqn:Himg.
  - destruct (drawing c) eqn:Hd.
    + destruct (on_image img pos (zoom_level c)) eqn:Hin.
      * rewrite (move_drawing_inside pos c img Himg Hcp Hd Hin).
        now do 2 eexists.
      * rewrite (move_drawing_outside pos c img Himg Hcp Hd Hin).
        now do 2 eexists.
    + rewrite (move_idle pos c img Himg (proj1 Hcp) Hd). now do 2 eexists.
  - rewrite (proj2 (mouse_no_image c Himg)). now do 2 eexists.
Qed.

Lemma mouseReleaseEvent_controls b : keeps_controls (mouseReleaseEvent b).
Proof.
  intros c Hcp. unfold mouseReleaseEvent, modify, ret.
  destruct (is_left b); now do 2 eexists.
Qed.

(** ** How a handler can end *)

(** One step of the user interface, seen from the controls: the zoom is
    kept or set within 5..50, the colour index is kept or set to 0 or 1,
    and the glyph height stays at least 1. *)
Record step_ok (e e' : Editor) : Prop := {
  so_zoom : zoom_level (canvas e') = zoom_level (canvas e) \/
            5 <= zoom_level (canvas e') <= 50;
  so_color : current_color_index (canvas e') = current_color_index (canvas e)
             \/ current_color_index (canvas e') = 0
             \/ current_color_index (canvas e') = 1;
  so_char_height : 1 <= char_height (canvas e) -> 1 <= char_height (canvas e')
}.

(** The states the user interface can be in. *)
Definition usable (e : Editor) : Prop :=
  5 <= zoom_level (canvas e) <= 50 /\
  (current_color_index (canvas e) = 0 \/ current_color_index (canvas e) = 1) /\
  1 <= char_height (canvas e).

(** The two zoom buttons. *)
Definition is_zoom_event (ev : ui_event) : bool :=
  match ev with
  | ZoomOutClicked | ZoomInClicked => true
  | _ => false
  end.

Lemma usable_can_paint e : usable e -> can_paint (canvas e).
Proof. intros (Hz & Hc & _). split; lia. Qed.

Lemma step_ok_refl e : step_ok e e.
Proof. split; auto. Qed.

Lemma step_ok_can_paint e e' :
  can_paint (canvas e) -> step_ok e e' -> can_paint (canvas e').
Proof. intros (Hz & Hc) [Sz Sc _]. split; lia. Qed.

Lemma step_ok_usable e e' : usable e -> step_ok e e' -> usable e'.
Proof. intros (Hz & Hc & Hh) [Sz Sc Sh]. repeat split; auto; lia. Qed.

Lemma on_canvas_mouse m e :
  paints m -> keeps_controls m -> can_paint (canvas e) ->
  exists e' tr, on_canvas m e = (Ok tt, e', tr) /\ step_ok e e'.
Proof.
  intros Hp Hk Hcp.
  destruct (Hp (canvas e) Hcp) as (c1 & t1 & E1 & [_ Hh _ _] & _).
  destruct (Hk (canvas e) Hcp) as (c2 & t2 & E2 & Hc).
  rewrite E1 in E2. injection E2 as <- <-.
  unfold on_canvas. rewrite E1. do 2 eexists. split; [reflexivity|].
  injection Hc as Hz Hi. split; cbn [canvas]; auto. lia.
Qed.

(** Every handler ends normally or, a zoom button only, with the
    [OverflowError] of a widget size beyond a C [int]. *)
Lemma handle_returns ev e :
  can_paint (canvas e) ->
  exists res e' tr,
    handle ev e = (res, e', tr) /\ step_ok e e' /\ ok_or_overflow res /\
    (is_zoom_event ev = false -> res = Ok tt).
Proof.
  intros Hcp.
  assert (Hmouse : forall m,
            paints m -> keeps_controls m ->
            exists res e' tr,
              on_canvas m e = (res, e', tr) /\ step_ok e e' /\
              ok_or_overflow res /\ (false = false -> res = Ok tt)).
  { intros m Hp Hk.
    destruct (on_canvas_mouse m e Hp Hk Hcp) as (e' & tr & E & S).
    exists (Ok tt), e', tr. split; [exact E|]. split; [exact S|].
    split; [now left | reflexivity]. }
  assert (Hzoom : forall delta,
            exists res e' tr,
              adjust_zoom delta e = (res, e', tr) /\ step_ok e e' /\
              ok_or_overflow res /\ (true = false -> res = Ok tt)).
  { intros delta. rewrite adjust_zoom_eq. do 3 eexists.
    split; [reflexivity|]. split; [|split; [apply resize_result|discriminate]].
    split; cbn [canvas zoom_level current_color_index char_height
                with_zoom_level]; auto. right. lia. }
  destruct ev; cbn [handle is_zoom_event].
  - destruct (load_character_total w filepath index e)
      as (c' & tr & E & Hc & Hh & _).
    rewrite E. do 3 eexists. split; [reflexivity|].
    injection Hc as Hz Hi.
    split; [split; cbn [canvas]; auto|]. split; [now left | reflexivity].
  - apply Hmouse; auto using mousePressEvent_paints, mousePressEvent_controls.
  - apply Hmouse; auto using mouseMoveEvent_paints, mouseMoveEvent_controls.
  - apply Hmouse; auto using mouseReleaseEvent_paints,
      mouseReleaseEvent_controls.
  - apply Hzoom.
  - apply Hzoom.
  - unfold set_color_button, on_canvas, set_color, modify.
    do 3 eexists. split; [reflexivity|].
    split; [split; cbn; auto|]. split; [now left | reflexivity].
  - unfold set_color_button, on_canvas, set_color, modify.
    do 3 eexists. split; [reflexivity|].
    split; [split; cbn; auto|]. split; [now left | reflexivity].
  - destruct (save_current_total w e) as (e' & tr & E & Hc & _).
    rewrite E. do 3 eexists. split; [reflexivity|].
    split; [split; rewrite Hc; auto|]. split; [now left | reflexivity].
Qed.

Lemma run_returns evs : forall e,
  can_paint (canvas e) ->
  exists res e' tr,
    run evs e = (res, e', tr) /\ can_paint (canvas e') /\
    (usable e -> usable e') /\ ok_or_overflow res /\
    (existsb is_zoom_event evs = false -> res = Ok tt).
Proof.
  induction evs as [|ev evs IH]; intros e Hcp.
  - exists (Ok tt), e, []. split; [reflexivity|]. split; [assumption|].
    split; [auto|]. split; [now left | reflexivity].
  - destruct (handle_returns ev e Hcp) as (res1 & e1 & t1 & E1 & S1 & R1 & Z1).
    pose proof (step_ok_can_paint e e1 Hcp S1) as Hcp1.
    cbn [run existsb]. unfold bind. rewrite E1.
    destruct R1 as [-> | ->].
    + destruct (IH e1 Hcp1) as (res2 & e2 & t2 & E2 & Hcp2 & Hu2 & R2 & Z2).
      rewrite E2. do 3 eexists. split; [reflexivity|].
      split; [assumption|].
      split; [intros Hu; apply Hu2; now apply step_ok_usable with (e := e)|].
      split; [assumption|].
      intros Hno. apply orb_false_iff in Hno as (_ & Hno). now apply Z2.
    + do 3 eexists. split; [reflexivity|]. split; [assumption|].
      split; [intros Hu; now apply step_ok_usable with (e := e)|].
      split; [now right|].
      intros Hno. apply orb_false_iff in Hno as (Hno & _). now apply Z1.
Qed.

Lemma Editor_init_usable : usable Editor_init.
Proof. repeat split; cbn; lia || auto. Qed.



(** X2. In every state the user interface reaches from its initial state,
    also the state an escaping exception leaves, the zoom lies in 5..50, the
    colour index is 0 or 1 and the glyph height is at least 1; so neither the
    division by the zoom nor the division by the glyph height can fail
    there. *)
Theorem reachable_states_usable evs :
  let e := state_of (run evs Editor_init) in
  5 <= zoom_level (canvas e) <= 50 /\
  (current_color_index (canvas e) = 0 \/ current_color_index (canvas e) = 1) /\
  1 <= char_height (canvas e).
Proof.
  destruct (run_returns evs Editor_init
              (usable_can_paint _ Editor_init_usable))
    as (res & e' & tr & E & _ & Hu & _).
  cbv zeta. rewrite E. exact (Hu Editor_init_usable).
Qed.

(** ** A load that fails *)

(** X3. When the file cannot be decoded, [load_character] reports a load
    error and leaves the canvas as it was, but the editor already points at
    the new file: a save that follows writes the document that was open
    before into the file that failed to load. *)
Theorem failed_load_retargets_save w w' path index e img pal ex :
  decode w path = Raise ex ->
  image (canvas e) = Some img -> original_palette (canvas e) = Some pal ->
  pal <> [] -> path <> EmptyString -> writable w' path = true ->
  let r := run [ThumbnailClicked w path index; SaveClicked w'] e in
  result_of r = Ok tt /\
  canvas (state_of r) = canvas e /\
  current_file (state_of r) = Some path /\
  trace_of r
  = [MessageBox Critical "Load Error";
     SaveBMP path (Image_new_P (QImage.width img) (QImage.height img) pal
                     (read_pixels img));
     MessageBox Information "Saved"; LoadWorkspace].
Proof.
  intros Hdec Himg Hpal Hne Hpath Hw r.
  assert (Erun : r = (Ok tt, mkEditor (Some path) (Some index) (canvas e),
                      [MessageBox Critical "Load Error";
                       SaveBMP path
                         (Image_new_P (QImage.width img) (QImage.height img)
                            pal (read_pixels img));
                       MessageBox Information "Saved"; LoadWorkspace])).
  { subst r. cbn [run handle]. unfold bind at 1.
    rewrite (load_character_failed w path index e ex Hdec).
    unfold bind, ret.
    rewrite (save_current_written w'
               (mkEditor (Some path) (Some index) (canvas e)) path img pal
               (file_set_nonempty path Hpath) Himg Hpal Hne Hw).
    reflexivity. }
  rewrite Erun. repeat split.
Qed.

Lemma failed_load_retargets_save_witness :
  current_file
    (state_of (run [ThumbnailClicked Sample.disk "missing.bmp" 7;
                    SaveClicked Sample.disk]
                 (mkEditor (Some "char0001.bmp"%string) (Some 1)
                    sample_canvas)))
  = Some "missing.bmp"%string.
Proof.
  assert (Hne : [255; 0; 255; 200; 0; 200] <> []) by discriminate.
  assert (Hpath : "missing.bmp"%string <> EmptyString) by discriminate.
  pose proof (failed_load_retargets_save Sample.disk Sample.disk
                "missing.bmp" 7
                (mkEditor (Some "char0001.bmp"%string) (Some 1) sample_canvas)
                sample_image [255; 0; 255; 200; 0; 200] OSError
                eq_refl eq_refl eq_refl Hne Hpath eq_refl) as (_ & _ & H & _).
  exact H.
Defined.

(** ** Saving twice *)

Lemma save_image_state w path c : state_of (save_image w path c) = c.
Proof.
  destruct (image c) as [img|] eqn:Himg.
  - destruct (truthy (original_palette c)) eqn:Hpal.
    + destruct (writable w path) eqn:Hw.
      * destruct (truthy_Some _ Hpal) as (pal & Epal & Hne).
        now rewrite (save_image_written w path c img pal Himg Epal Hne Hw).
      * now rewrite (save_image_io_error w path c img Himg Hpal Hw).
    + now rewrite (save_image_refused w path c (or_intror Hpal)).
  - now rewrite (save_image_refused w path c (or_introl Himg)).
Qed.

Lemma save_current_ext w e e' :
  canvas e' = canvas e -> current_file e' = current_file e ->
  current_index e' = current_index e ->
  save_current w e' = save_current w e.
Proof. destruct e, e'. cbn. now intros -> -> ->. Qed.

Lemma save_current_one_file w e :
  (length (written_files (trace_of (save_current w e))) <= 1)%nat.
Proof.
  destruct (file_set (current_file e)) as [path|] eqn:Hfile.
  - destruct (image (canvas e)) as [img|] eqn:Himg.
    + destruct (truthy (original_palette (canvas e))) eqn:Hpal.
      * destruct (writable w path) eqn:Hw.
        -- destruct (truthy_Some _ Hpal) as (pal & Epal & Hne).
           rewrite (save_current_written w e path img pal Hfile Himg Epal Hne
                      Hw).
           cbn. lia.
        -- rewrite (save_current_io_error w e path img Hfile Himg Hpal Hw).
           cbn. lia.
      * rewrite (save_current_refused w e path Hfile (or_intror Hpal)).
        cbn. lia.
    + rewrite (save_current_refused w e path Hfile (or_introl Himg)).
      cbn. lia.
  - rewrite (save_current_no_file w e Hfile). cbn. lia.
Qed.

(** X4. Saving is idempotent: [save_image] never changes the canvas, so a
    second save with no edit in between writes the same file again (same
    path, palette and pixels), and at most one file per save. *)
Theorem save_twice_writes_same w e :
  let once := written_files (trace_of (save_current w e)) in
  let twice := written_files (trace_of (run [SaveClicked w; SaveClicked w] e)) in
  (forall path c, state_of (save_image w path c) = c) /\
  canvas (state_of (save_current w e)) = canvas e /\
  twice = once ++ once /\
  (length once <= 1)%nat.
Proof.
  intros once twice. subst once twice.
  split; [intros; apply save_image_state|].
  destruct (save_current_total w e) as (e' & tr & E & Hc & Hf & Hi).
  cbn [run handle]. unfold bind, ret.
  rewrite E, (save_current_ext w e e' Hc Hf Hi), E.
  unfold state_of, trace_of. cbn [fst snd].
  rewrite app_nil_r, written_files_app.
  repeat split; [assumption|].
  pose proof (save_current_one_file w e) as H1. now rewrite E in H1.
Qed.

(** ** The decoded image in closed form *)

(** The colour [load_image] gives entry [i] of the colour table (lines
    80-83): the [i]-th RGB triplet of the palette, zero where the palette is
    too short. *)
Definition palette_color (palette : list Z) (i : Z) : Z :=
  qRgb (item_or_0 palette (i * 3)) (item_or_0 palette (i * 3 + 1))
       (item_or_0 palette (i * 3 + 2)).

Lemma set_color_table_entries palette (n : nat) img :
  let step := fun img i =>
    QImage.setColor (Z.to_nat i)
      (qRgb (item_or_0 palette (i * 3)) (item_or_0 palette (i * 3 + 1))
            (item_or_0 palette (i * 3 + 2))) img in
  forall i : nat, (i < n)%nat ->
  QImage.colortable (foldl step img (map Z.of_nat (seq 0 n))) !! i
  = Some (palette_color palette (Z.of_nat i)).
Proof.
  intros step. induction n as [|n IH]; intros i Hi; [lia|].
  rewrite range_S, foldl_app. cbn [foldl].
  set (prev := foldl step img (map Z.of_nat (seq 0 n))) in *.
  unfold step at 1. unfold QImage.setColor. cbn [QImage.colortable].
  rewrite Nat2Z.id.
  destruct (Nat.eq_dec i n) as [->|Hne].
  - rewrite list_lookup_insert_eq; [reflexivity|].
    rewrite length_app, length_replicate. lia.
  - rewrite list_lookup_insert_ne by congruence.
    apply lookup_app_l_Some, IH. lia.
Qed.

Lemma set_color_table_closed palette img :
  QImage.colortable img = [] ->
  QImage.colortable (set_color_table palette img)
  = map (palette_color palette) (range 256).
Proof.
  intros Hempty.
  destruct (set_color_table_spec palette img) as (_ & _ & _ & Hlen).
  rewrite Hempty in Hlen. cbn [length Nat.max] in Hlen.
  apply list_eq. intros i.
  destruct (Nat.lt_ge_cases i 256) as [Hi|Hi].
  - unfold set_color_table.
    change (range 256) with (range (Z.of_nat 256)). rewrite range_nat.
    rewrite (set_color_table_entries palette 256 img i Hi).
    rewrite !list_lookup_fmap, lookup_seq_lt by exact Hi. reflexivity.
  - rewrite !lookup_ge_None_2; [reflexivity| |lia].
    unfold range. now rewrite !length_map, length_seq.
Qed.

Lemma loaded_image_closed w pal im :
  pil_wf im -> truthy pal = true ->
  loaded_image w pal im
  = QImage.mk (fst (size im)) (snd (size im))
      (map (palette_color (take 768 (default [] pal))) (range 256))
      (tobytes im).
Proof.
  intros Hwf Hpal.
  destruct (loaded_image_indexed w pal im Hwf Hpal) as (_ & Hbits).
  destruct (loaded_image_dims w pal im (wf_width _ Hwf) (wf_height _ Hwf))
    as (Hw & Hh).
  assert (Htbl : QImage.colortable (loaded_image w pal im)
                 = map (palette_color (take 768 (default [] pal)))
                       (range 256)).
  { unfold loaded_image. cbv zeta. rewrite Hpal.
    match goal with
    | |- context [copy_pixels ?a ?b ?d ?i] =>
        destruct (copy_pixels_shape a b d i) as (_ & _ & Hc & _)
    end.
    rewrite Hc. apply set_color_table_closed.
    unfold QImage.create. now destruct (_ && _). }
  destruct (loaded_image w pal im) as [wd ht tbl bits].
  cbn in Hbits, Hw, Hh, Htbl. now subst.
Qed.

(** X5. Decoding a well-formed indexed picture that carries a palette
    leaves exactly this image on the canvas: the picture's size, a colour
    table of 256 entries whose entry [i] is the [i]-th RGB triplet of the
    palette (zero beyond its end), and the picture's bytes as pixel indices.
    Nothing of the uninitialised image memory or of the document open
    before remains.  [load_image] returns, unless the widget cannot take the
    size of the zoomed picture; the image is on the canvas in both cases. *)
Theorem loaded_image_closed_form w path c im :
  Image_open w path = Ok im -> is_P im = true -> pil_wf im ->
  truthy (getpalette im) = true ->
  let c' := state_of (load_image w path c) in
  result_of (load_image w path c)
  = (if resizable c' then Ok tt else Raise OverflowError) /\
  original_palette c' = getpalette im /\
  image c'
  = Some (QImage.mk (fst (size im)) (snd (size im))
            (map (palette_color (take 768 (default [] (getpalette im))))
                 (range 256))
            (tobytes im)).
Proof.
  intros Hopen HP Hwf Hpal c'. subst c'.
  rewrite (load_image_indexed w path c im Hopen HP), resize_state.
  split; [unfold resize; now destruct (resizable _)|].
  unfold loaded_canvas.
  cbn [image with_image original_palette with_char_height
       with_original_palette].
  now rewrite (loaded_image_closed w (getpalette im) im Hwf Hpal).
Qed.

Lemma loaded_image_closed_form_witness :
  image (state_of (load_image Sample.disk "char0001.bmp" Canvas_init))
  = Some (QImage.mk (fst (size Sample.picture)) (snd (size Sample.picture))
            (map (palette_color
                    (take 768 (default [] (getpalette Sample.picture))))
                 (range 256))
            (tobytes Sample.picture)).
Proof.
  exact (proj2 (proj2
           (loaded_image_closed_form Sample.disk "char0001.bmp" Canvas_init
              Sample.picture eq_refl eq_refl Sample.picture_wf eq_refl))).
Defined.

(** ** An edit reaches the file *)

Lemma setPixel_bits img x y v :
  QImage.valid img x y = true -> 0 <= v < QImage.colorCount img ->
  QImage.bits (QImage.setPixel x y v img)
  = <[QImage.offset img x y := v]> (QImage.bits img).
Proof.
  intros Hv Hc. unfold QImage.setPixel. rewrite Hv. cbn [negb].
  destruct (Z.leb_spec (QImage.colorCount img) v); [lia | reflexivity].
Qed.

(** X6. Open an indexed file, press the left button on an in-bounds cell
    [(x, y)], save: the file written has the palette and the size of the
    opened file and its pixel array with exactly the entry [y * width + x]
    replaced by the current colour index. *)
Theorem edit_reaches_file w w' path index im e pos x y :
  Image_open w path = Ok im -> is_P im = true -> pil_wf im ->
  truthy (getpalette im) = true -> path <> EmptyString ->
  writable w' path = true ->
  zoom_level (canvas e) <> 0 -> 0 <= current_color_index (canvas e) < 256 ->
  cell_of pos (zoom_level (canvas e)) = (x, y) ->
  0 <= x < fst (size im) -> 0 <= y < snd (size im) ->
  let r := run [ThumbnailClicked w path index; MousePress LeftButton pos;
                SaveClicked w'] e in
  result_of r = Ok tt /\
  exists saved,
    written_files (trace_of r) = [(path, saved)] /\
    getpalette saved = getpalette im /\
    size saved = size im /\
    tobytes saved
    = <[Z.to_nat (y * fst (size im) + x) := current_color_index (canvas e)]>
        (tobytes im).
Proof.
  intros Hopen HP Hwf Hpal Hpath Hwr Hz Hci Hcell Hx Hy r.
  destruct (truthy_Some _ Hpal) as (pal & Epal & Hne).
  assert (Hdec : decode w path = Ok im)
    by (unfold decode; now rewrite Hopen, HP).
  assert (Hafter : palette_after w path (canvas e) = Some pal)
    by (unfold palette_after; now rewrite Hopen, HP).
  assert (Hcp : can_paint (canvas e)) by (split; [assumption | lia]).
  assert (Htruthy : truthy (Some pal) = true) by now rewrite <- Epal.
  destruct (load_character_state w path index e im Hdec) as (t0 & E0 & W0 & _).
  rewrite Hafter in E0.
  destruct (loaded_image_indexed w (Some pal) im Hwf Htruthy) as (Hc0 & Hb0).
  destruct (loaded_image_dims w (Some pal) im (wf_width _ Hwf)
              (wf_height _ Hwf)) as (Hw0 & Hh0).
  pose proof (loaded_image_wf w (Some pal) im) as Hwf0.
  set (img0 := loaded_image w (Some pal) im) in *.
  set (c0 := loaded_canvas w (Some pal) im (canvas e)) in *.
  assert (Hv : QImage.valid img0 x y = true)
    by (apply valid_bounds; rewrite Hw0, Hh0; lia).
  assert (Hin : on_image img0 pos (zoom_level c0) = true).
  { unfold on_image. change (zoom_level c0) with (zoom_level (canvas e)).
    now rewrite Hcell. }
  pose proof (press_inside pos c0 img0 eq_refl Hcp Hin) as E1.
  set (img1 := painted pos c0 img0) in *.
  set (c1 := with_image (Some img1) (with_drawing true c0)) in *.
  assert (Hb1 : QImage.bits img1
                = <[Z.to_nat (y * fst (size im) + x)
                    := current_color_index (canvas e)]> (tobytes im)).
  { unfold img1, painted.
    change (zoom_level c0) with (zoom_level (canvas e)).
    change (current_color_index c0) with (current_color_index (canvas e)).
    rewrite Hcell. cbn [fst snd].
    rewrite setPixel_bits by (rewrite ?Hc0; assumption || lia).
    unfold QImage.offset. now rewrite Hw0, Hb0. }
  assert (Hshape : same_shape img1 img0) by apply setPixel_shape.
  pose proof (save_current_written w'
                (mkEditor (Some path) (Some index) c1) path img1 pal
                (file_set_nonempty path Hpath) eq_refl eq_refl Hne Hwr) as E2.
  eassert (Erun : r = _).
  { subst r. cbn [run handle]. unfold bind at 1. rewrite E0.
    unfold bind at 1. unfold on_canvas at 1. cbn [canvas].
    fold c0. rewrite E1. unfold bind, ret. cbn [current_file current_index].
    rewrite E2. reflexivity. }
  rewrite Erun. unfold result_of, trace_of. cbn [fst snd].
  rewrite !written_files_app, W0. cbn [written_files flat_map app].
  split; [reflexivity|]. eexists. split; [reflexivity|].
  cbn [Image_new_P getpalette size tobytes].
  rewrite read_pixels_wf by (apply (same_shape_wf _ _ Hshape Hwf0)).
  destruct Hshape as (Hw1 & Hh1 & _).
  rewrite Hw1, Hh1, Hw0, Hh0, Hb1, Epal.
  repeat split. now destruct (size im).
Qed.

Lemma edit_reaches_file_witness :
  exists saved,
    written_files
      (trace_of (run [ThumbnailClicked Sample.disk "char0001.bmp" 1;
                      MousePress LeftButton (5, 5);
                      SaveClicked Sample.disk] Editor_init))
    = [("char0001.bmp"%string, saved)] /\
    tobytes saved = [1; 1; 1; 0].
Proof.
  assert (Hpath : "char0001.bmp"%string <> EmptyString) by discriminate.
  assert (Hz : zoom_level (canvas Editor_init) <> 0) by discriminate.
  assert (Hci : 0 <= current_color_index (canvas Editor_init) < 256)
    by (cbn; lia).
  assert (Hx : 0 <= 0 < fst (size Sample.picture)) by (cbn; lia).
  assert (Hy : 0 <= 0 < snd (size Sample.picture)) by (cbn; lia).
  destruct (edit_reaches_file Sample.disk Sample.disk "char0001.bmp" 1
              Sample.picture Editor_init (5, 5) 0 0
              eq_refl eq_refl Sample.picture_wf eq_refl Hpath eq_refl Hz Hci
              eq_refl Hx Hy) as (_ & saved & H1 & _ & _ & H2).
  exists saved. split; [exact H1 | exact H2].
Defined.

(** ** A file that is not indexed, on a canvas that holds no palette *)

Lemma setPixel_no_table x y v img :
  QImage.colortable img = [] -> 0 <= v -> QImage.setPixel x y v img = img.
Proof.
  intros Hempty Hv. unfold QImage.setPixel, QImage.colorCount.
  rewrite Hempty. cbn [length].
  destruct (negb (QImage.valid img x y)); [reflexivity|].
  destruct (Z.leb_spec (Z.of_nat 0) v); [reflexivity | lia].
Qed.

Lemma foldl_fixed {A B} (f : A -> B -> A) a l :
  (forall b, f a b = a) -> foldl f a l = a.
Proof.
  intros Hf. induction l as [|b l IH]; [reflexivity|].
  cbn [foldl]. now rewrite Hf.
Qed.

Lemma copy_pixels_no_table width height data img :
  QImage.colortable img = [] -> Forall is_byte data ->
  copy_pixels width height data img = img.
Proof.
  intros Hempty Hdata. unfold copy_pixels.
  apply foldl_fixed. intros y. unfold copy_row.
  apply foldl_fixed. intros x. cbv zeta.
  destruct (_ <? _); [|reflexivity].
  apply setPixel_no_table; [assumption|].
  destruct (data !! Z.to_nat (y * width + x)) as [v|] eqn:Hv; [|cbn; lia].
  pose proof (Forall_lookup_1 _ _ _ _ Hdata Hv) as Hb.
  unfold is_byte in Hb. cbn. lia.
Qed.

(** X7. A file that is not in mode 'P', opened on a canvas that holds no
    palette: [load_image] succeeds (unless the widget cannot take the size
    of the zoomed picture), but the image gets no colour table, so none of
    the converted pixels is stored (the buffer keeps what the allocation
    held), no palette is held afterwards, and [save_image] returns [False]
    for every path. *)
Theorem unindexed_on_fresh_canvas w path c im im' :
  Image_open w path = Ok im -> is_P im = false -> convert_P w im = Ok im' ->
  truthy (original_palette c) = false -> Forall is_byte (tobytes im') ->
  let r := load_image w path c in
  result_of r
  = (if resizable (state_of r) then Ok tt else Raise OverflowError) /\
  original_palette (state_of r) = original_palette c /\
  image (state_of r)
  = Some (QImage.create (fst (size im')) (snd (size im')) (heap w)) /\
  (forall w' out,
     save_image w' out (state_of r) = (Ok false, state_of r, [])).
Proof.
  intros Hopen HP Hconv Hpal Hbytes r. subst r.
  rewrite (load_image_converted w path c im im' Hopen HP Hconv), resize_state.
  assert (Himg : loaded_image w (original_palette c) im'
                 = QImage.create (fst (size im')) (snd (size im')) (heap w)).
  { unfold loaded_image. cbv zeta. rewrite Hpal.
    apply copy_pixels_no_table; [|assumption].
    unfold QImage.create. now destruct (_ && _). }
  split; [unfold resize; now destruct (resizable _)|].
  split; [reflexivity|].
  split; [unfold loaded_canvas; cbn [image with_image]; now rewrite Himg|].
  intros w' out. apply save_image_refused. right. exact Hpal.
Qed.

Lemma unindexed_on_fresh_canvas_witness :
  image (state_of (load_image Sample.disk "char0002.bmp" Canvas_init))
  = Some (QImage.create 2 1 (fun _ => 77)).
Proof.
  assert (Hbytes : Forall is_byte (tobytes Sample.photo_P))
    by (repeat constructor; unfold is_byte; lia).
  exact (proj1 (proj2 (proj2
           (unindexed_on_fresh_canvas Sample.disk "char0002.bmp" Canvas_init
              Sample.photo Sample.photo_P eq_refl eq_refl eq_refl eq_refl
              Hbytes)))).
Defined.

(** X8. Painting with a colour index that is not an entry of the image's
    colour table (every index, when the table is empty): no pixel of the
    image changes, yet the canvas is redrawn and the change signal is
    emitted for the cell.  The signal carries the index that was not
    written, as a C [int]: an index above 2147483647 arrives negative. *)
Theorem paint_outside_colour_table pos c img :
  image c = Some img -> can_paint c ->
  on_image img pos (zoom_level c) = true ->
  QImage.colorCount img <= current_color_index c ->
  draw_pixel pos c
  = (Ok tt, with_image (Some img) c,
     [Update;
      PixelChanged (fst (cell_of pos (zoom_level c)))
        (snd (cell_of pos (zoom_level c)))
        (wrap_int (current_color_index c))]) /\
  (current_color_index c <= 2147483647 ->
   wrap_int (current_color_index c) = current_color_index c) /\
  (2147483647 < current_color_index c ->
   wrap_int (current_color_index c) = current_color_index c - 4294967296).
Proof.
  intros Himg (Hz & Hci) Hin Hout.
  rewrite (draw_pixel_inside pos c img Himg Hz Hin Hci).
  assert (Hsame : forall x y,
            QImage.setPixel x y (current_color_index c) img = img).
  { intros x y. unfold QImage.setPixel.
    destruct (negb (QImage.valid img x y)); [reflexivity|].
    destruct (Z.leb_spec (QImage.colorCount img) (current_color_index c));
      [reflexivity | lia]. }
  rewrite Hsame. split; [reflexivity|]. split.
  - intros Hsmall. apply wrap_int_small. lia.
  - intros Hbig. unfold wrap_int.
    replace (current_color_index c + 2147483648)
      with (current_color_index c - 2147483648 + 1 * 4294967296) by lia.
    rewrite Z.mod_add, Z.mod_small by lia. lia.
Qed.

Lemma paint_outside_colour_table_witness :
  draw_pixel (25, 5) (with_current_color_index 3000000000 sample_canvas)
  = (Ok tt, with_current_color_index 3000000000 sample_canvas,
     [Update; PixelChanged 1 0 (-1294967296)]).
Proof.
  assert (Hcp : can_paint (with_current_color_index 3000000000 sample_canvas))
    by (split; [discriminate | cbn; lia]).
  assert (Hout : QImage.colorCount sample_image
                 <= current_color_index
                      (with_current_color_index 3000000000 sample_canvas))
    by (rewrite (proj2 sample_image_facts); cbn; lia).
  exact (proj1 (paint_outside_colour_table (25, 5)
                  (with_current_color_index 3000000000 sample_canvas)
                  sample_image eq_refl Hcp eq_refl Hout)).
Defined.

(** ** The widget and the grid *)

Lemma div_bounds a z q :
  0 < z -> (q <= a / z <-> q * z <= a) /\ (a / z < q <-> a < q * z).
Proof.
  intros Hz.
  pose proof (Z.mul_div_le a z Hz). pose proof (Z.mul_succ_div_gt a z Hz).
  split; split; intros; nia.
Qed.



(** ** The glyph overlay of [paintEvent] *)

Lemma in_range k n : In k (range n) <-> 0 <= k < n.
Proof.
  unfold range. rewrite in_map_iff. split.
  - intros (i & <- & Hi). apply in_seq in Hi. lia.
  - intros Hk. exists (Z.to_nat k). split; [lia|]. apply in_seq. lia.
Qed.

Lemma mouseMoveEvent_hover pos c img :
  image c = Some img -> can_paint c ->
  let c' := state_of (mouseMoveEvent pos c) in
  hover_y c' = snd pos / zoom_level c /\
  char_height c' = char_height c /\ zoom_level c' = zoom_level c /\
  show_char_indices c' = show_char_indices c /\
  exists img', image c' = Some img' /\ QImage.height img' = QImage.height img.
Proof.
  intros Himg Hcp. cbv zeta. destruct (drawing c) eqn:Hd.
  - destruct (on_image img pos (zoom_level c)) eqn:Hin.
    + rewrite (move_drawing_inside pos c img Himg Hcp Hd Hin).
      repeat split. eexists. split; [reflexivity|].
      apply (setPixel_shape _ _ _ img).
    + rewrite (move_drawing_outside pos c img Himg Hcp Hd Hin).
      repeat split. now exists img.
  - rewrite (move_idle pos c img Himg (proj1 Hcp) Hd).
    repeat split. now exists img.
Qed.

(** Filtering [0 .. n-1] with a test that holds at one number only. *)
Lemma filter_range_one (f : Z -> bool) (j : Z) (m : nat) :
  (forall k, f k = true <-> k = j) ->
  List.filter f (map Z.of_nat (seq 0 m))
  = if (0 <=? j) && (j <? Z.of_nat m) then [j] else [].
Proof.
  intros Hf. induction m as [|m IH].
  { cbn [seq map List.filter].
    destruct (Z.leb_spec 0 j), (Z.ltb_spec j (Z.of_nat 0));
      cbn [andb]; try reflexivity; lia. }
  rewrite range_S, List.filter_app, IH. cbn [List.filter].
  destruct (f (Z.of_nat m)) eqn:Hm.
  - apply Hf in Hm. subst j.
    rewrite Z.ltb_irrefl, andb_false_r. cbn [app].
    destruct (Z.leb_spec 0 (Z.of_nat m)); [|lia].
    destruct (Z.ltb_spec (Z.of_nat m) (Z.of_nat (S m))); [reflexivity | lia].
  - assert (Hne : Z.of_nat m <> j).
    { intros <-. rewrite (proj2 (Hf _) eq_refl) in Hm. discriminate. }
    rewrite app_nil_r.
    destruct (Z.leb_spec 0 j); [|reflexivity]. cbn [andb].
    destruct (Z.ltb_spec j (Z.of_nat m)), (Z.ltb_spec j (Z.of_nat (S m)));
      try reflexivity; lia.
Qed.

(** X10. After a pointer move on an open document, among the glyphs the
    overlay of [paintEvent] draws it highlights exactly the one whose band,
    from [y_start] (included) to [y_end] (excluded), holds the pointer: glyph
    [(y // zoom) // char_height] when that is one of the glyphs drawn, and
    none otherwise. *)
Theorem hover_highlights_band pos c img :
  image c = Some img -> can_paint c ->
  0 < zoom_level c -> 0 < char_height c -> show_char_indices c = true ->
  let c' := state_of (mouseMoveEvent pos c) in
  let glyph := snd pos / zoom_level c / char_height c in
  let num_chars := QImage.height img / char_height c in
  overlay_glyphs c' = range num_chars /\
  (forall k, In k (highlighted_glyphs c') <->
             In k (overlay_glyphs c') /\
             y_start c' k <= snd pos < y_end c' k) /\
  highlighted_glyphs c'
  = (if (0 <=? glyph) && (glyph <? num_chars) then [glyph] else []).
Proof.
  intros Himg Hcp Hz Hh Hshow c' glyph num_chars.
  destruct (mouseMoveEvent_hover pos c img Himg Hcp)
    as (Hy & Hch & Hzoom & Hs & img' & Himg' & Hht).
  fold c' in Hy, Hch, Hzoom, Hs, Himg'.
  assert (Hband : forall k,
            is_hovered c' k = true <-> y_start c' k <= snd pos < y_end c' k).
  { intros k. unfold is_hovered, y_start, y_end. rewrite Hy, Hch, Hzoom.
    rewrite andb_true_iff, Z.leb_le, Z.ltb_lt.
    destruct (div_bounds (snd pos) (zoom_level c) (k * char_height c) Hz)
      as (H1 & _).
    destruct (div_bounds (snd pos) (zoom_level c) ((k + 1) * char_height c)
                Hz) as (_ & H2).
    now rewrite H1, H2. }
  assert (Hone : forall k, is_hovered c' k = true <-> k = glyph).
  { intros k. unfold is_hovered. rewrite Hy, Hch.
    rewrite andb_true_iff, Z.leb_le, Z.ltb_lt.
    set (row := snd pos / zoom_level c).
    destruct (div_bounds row (char_height c) k Hh) as (H3 & _).
    destruct (div_bounds row (char_height c) (k + 1) Hh) as (_ & H4).
    rewrite <- H3, <- H4. unfold glyph. fold row. lia. }
  assert (Hglyphs : overlay_glyphs c' = range num_chars).
  { unfold overlay_glyphs, overlay_num_chars.
    rewrite Himg', Hs, Hshow, Hch, Hht.
    destruct (Z.ltb_spec 0 (char_height c)); [reflexivity | lia]. }
  split; [exact Hglyphs|]. split.
  - intros k. unfold highlighted_glyphs. rewrite filter_In, <- Hband. tauto.
  - unfold highlighted_glyphs. rewrite Hglyphs. unfold range.
    rewrite (filter_range_one _ glyph _ Hone).
    destruct (Z.leb_spec 0 glyph); [|reflexivity]. cbn [andb].
    destruct (Z.ltb_spec glyph num_chars),
             (Z.ltb_spec glyph (Z.of_nat (Z.to_nat num_chars)));
      try reflexivity; lia.
Qed.

Lemma hover_highlights_band_witness :
  highlighted_glyphs
    (state_of (mouseMoveEvent (5, 30) (with_char_height 1 sample_canvas)))
  = [1].
Proof.
  assert (Hcp : can_paint (with_char_height 1 sample_canvas))
    by (split; [discriminate | cbn; lia]).
  assert (Hz : 0 < zoom_level (with_char_height 1 sample_canvas))
    by (cbn; lia).
  assert (Hh : 0 < char_height (with_char_height 1 sample_canvas))
    by (cbn; lia).
  exact (proj2 (proj2
           (hover_highlights_band (5, 30) (with_char_height 1 sample_canvas)
              sample_image eq_refl Hcp Hz Hh eq_refl))).
Defined.

(** X11. The overlay labels glyphs [0 .. height // char_height - 1]; every
    labelled glyph lies wholly inside the image, and the rows left over at
    the bottom (fewer than [char_height]) belong to no labelled glyph. *)
Theorem overlay_glyphs_partition c img row :
  image c = Some img -> show_char_indices c = true -> 0 < char_height c ->
  0 <= row < QImage.height img ->
  let n := QImage.height img / char_height c in
  (forall k, In k (overlay_glyphs c) <-> 0 <= k < n) /\
  (forall k, In k (overlay_glyphs c) ->
     0 <= k * char_height c /\ (k + 1) * char_height c <= QImage.height img) /\
  n * char_height c <= QImage.height img < (n + 1) * char_height c /\
  (In (row / char_height c) (overlay_glyphs c) <-> row < n * char_height c).
Proof.
  intros Himg Hshow Hh Hrow n.
  assert (Hglyphs : overlay_glyphs c = range n).
  { unfold overlay_glyphs, overlay_num_chars. rewrite Himg, Hshow.
    destruct (Z.ltb_spec 0 (char_height c)); [reflexivity | lia]. }
  rewrite Hglyphs.
  pose proof (Z.mul_div_le (QImage.height img) (char_height c) Hh) as Hlo.
  pose proof (Z.mul_succ_div_gt (QImage.height img) (char_height c) Hh) as Hhi.
  fold n in Hlo, Hhi.
  split; [intros k; apply in_range|].
  split; [intros k Hk; apply in_range in Hk; nia|].
  split; [lia|].
  rewrite in_range.
  destruct (div_bounds row (char_height c) 0 Hh) as (H0 & _).
  destruct (div_bounds row (char_height c) n Hh) as (_ & H1).
  rewrite H0, H1. lia.
Qed.

Lemma overlay_glyphs_partition_witness :
  In (1 / char_height (with_char_height 1 sample_canvas))
     (overlay_glyphs (with_char_height 1 sample_canvas)) <->
  1 < QImage.height sample_image
      / char_height (with_char_height 1 sample_canvas)
      * char_height (with_char_height 1 sample_canvas).
Proof.
  assert (Hh : 0 < char_height (with_char_height 1 sample_canvas))
    by (cbn; lia).
  assert (Hrow : 0 <= 1 < QImage.height sample_image) by (cbn; lia).
  exact (proj2 (proj2 (proj2
           (overlay_glyphs_partition (with_char_height 1 sample_canvas)
              sample_image 1 eq_refl eq_refl Hh Hrow)))).
Defined.

(** ** Outside a stroke *)

(** The pointer events that do not begin a stroke: moves, releases, and
    presses of another button than the left one. *)
Definition is_idle_event (ev : ui_event) : bool :=
  match ev with
  | MouseMove _ | MouseRelease _ => true
  | MousePress b _ => negb (is_left b)
  | _ => false
  end.

Lemma idle_events_paint_nothing evs : forall e,
  forallb is_idle_event evs = true ->
  can_paint (canvas e) -> drawing (canvas e) = false ->
  exists e' tr,
    run evs e = (Ok tt, e', tr) /\ image (canvas e') = image (canvas e) /\
    drawing (canvas e') = false /\ paint_signals tr = [].
Proof.
  induction evs as [|ev evs IH]; intros e Hevs Hcp Hd.
  - exists e, []. split; [reflexivity|]. split; [reflexivity|]. now split.
  - cbn [forallb] in Hevs. apply andb_true_iff in Hevs as (Hev & Hevs).
    assert (Hstep : exists c' tr,
              handle ev e
              = (Ok tt, mkEditor (current_file e) (current_index e) c', tr) /\
              image c' = image (canvas e) /\ drawing c' = false /\
              can_paint c' /\ paint_signals tr = []).
    { destruct ev; try discriminate; cbn [handle]; unfold on_canvas.
      - rewrite press_other_button by now apply negb_true_iff.
        exists (canvas e), []. now repeat (split; [reflexivity || assumption|]).
      - destruct (image (canvas e)) as [img|] eqn:Himg.
        + rewrite (move_idle pos (canvas e) img Himg (proj1 Hcp) Hd).
          do 2 eexists. split; [reflexivity|].
          split; [exact Himg|]. split; [exact Hd|].
          split; [exact Hcp | apply paint_signals_hover].
        + rewrite (proj2 (mouse_no_image (canvas e) Himg)).
          exists (canvas e), [].
          split; [reflexivity|]. split; [exact Himg|]. now split.
      - unfold mouseReleaseEvent, modify, ret.
        destruct (is_left b).
        + exists (with_drawing false (canvas e)), [].
          split; [reflexivity|]. split; [reflexivity|].
          split; [reflexivity|]. now split.
        + exists (canvas e), [].
          split; [reflexivity|]. split; [reflexivity|]. now split. }
    destruct Hstep as (c1 & t1 & E1 & Hi1 & Hd1 & Hcp1 & Hs1).
    destruct (IH (mkEditor (current_file e) (current_index e) c1) Hevs Hcp1
                Hd1) as (e2 & t2 & E2 & Hi2 & Hd2 & Hs2).
    exists e2, (t1 ++ t2). cbn [run]. unfold bind. rewrite E1, E2.
    split; [reflexivity|]. split; [now rewrite Hi2|].
    split; [assumption|]. now rewrite paint_signals_app, Hs1, Hs2.
Qed.

(** X12. Releasing the left button ends the stroke: whatever moves,
    releases and presses of other buttons follow, no pixel changes and no
    paint signal is emitted until the left button is pressed again. *)
Theorem release_ends_stroke evs e :
  can_paint (canvas e) -> forallb is_idle_event evs = true ->
  let r := run (MouseRelease LeftButton :: evs) e in
  result_of r = Ok tt /\
  image (canvas (state_of r)) = image (canvas e) /\
  drawing (canvas (state_of r)) = false /\
  paint_signals (trace_of r) = [].
Proof.
  intros Hcp Hevs r.
  destruct (idle_events_paint_nothing evs
              (mkEditor (current_file e) (current_index e)
                 (with_drawing false (canvas e))) Hevs Hcp eq_refl)
    as (e' & tr & E & Hi & Hd & Hs).
  assert (Erun : r = (Ok tt, e', tr)).
  { subst r. cbn [run handle]. unfold bind at 1.
    unfold on_canvas, mouseReleaseEvent, modify. cbn [is_left].
    now rewrite E. }
  rewrite Erun. repeat split; assumption.
Qed.

Lemma release_ends_stroke_witness :
  paint_signals
    (trace_of (run [MouseRelease LeftButton; MouseMove (25, 5);
                    MousePress RightButton (5, 5); MouseMove (5, 25)]
                 (mkEditor (Some "char0001.bmp"%string) (Some 1)
                    (with_drawing true sample_canvas))))
  = [].
Proof.
  assert (Hcp : can_paint (with_drawing true sample_canvas))
    by (split; [discriminate | cbn; lia]).
  exact (proj2 (proj2 (proj2
           (release_ends_stroke
              [MouseMove (25, 5); MousePress RightButton (5, 5);
               MouseMove (5, 25)]
              (mkEditor (Some "char0001.bmp"%string) (Some 1)
                 (with_drawing true sample_canvas))
              Hcp eq_refl)))).
Defined.

(** X13. A stroke can begin outside the image: a left press on a cell out
    of bounds paints nothing but starts the stroke, and the next move onto
    an in-bounds cell paints that cell and emits its signal. *)
Theorem stroke_begins_outside c img p1 p2 :
  image c = Some img -> can_paint c ->
  on_image img p1 (zoom_level c) = false ->
  on_image img p2 (zoom_level c) = true ->
  let r := (mousePressEvent LeftButton p1 ;; mouseMoveEvent p2) c in
  result_of r = Ok tt /\
  mousePressEvent LeftButton p1 c = (Ok tt, with_drawing true c, []) /\
  paint_signals (trace_of r) = [signal_of p2 c] /\
  image (state_of r) = Some (painted p2 c img).
Proof.
  intros Himg Hcp H1 H2 r.
  pose proof (press_outside p1 c img Himg Hcp H1) as E1.
  pose proof (move_drawing_inside p2 (with_drawing true c) img Himg Hcp
                eq_refl H2) as E2.
  subst r. unfold bind. rewrite E1, E2.
  unfold result_of, state_of, trace_of. cbn [fst snd app].
  rewrite paint_signals_app, paint_signals_hover.
  repeat split.
Qed.

Lemma stroke_begins_outside_witness :
  paint_signals
    (trace_of ((mousePressEvent LeftButton (45, 5) ;; mouseMoveEvent (25, 5))
                 sample_canvas))
  = [signal_of (25, 5) sample_canvas].
Proof.
  assert (Hcp : can_paint sample_canvas) by (split; [discriminate | cbn; lia]).
  exact (proj1 (proj2 (proj2
           (stroke_begins_outside sample_canvas sample_image (45, 5) (25, 5)
              eq_refl Hcp eq_refl eq_refl)))).
Defined.

(** ** load_workspace: the grid of thumbnails *)


Lemma remove_all_skip old n s t :
  String.length s = n ->
  remove_all old n (String.append s t) = remove_all old 0 t.
Proof.
  revert n. induction s as [|ch s IH]; intros n Hn; cbn in Hn; subst n.
  - reflexivity.
  - cbn [String.append remove_all]. now apply IH.
Qed.

(** A string in which the first character of [old] does not occur holds
    no occurrence of [old]. *)
Fixpoint free_of (a : Ascii.ascii) (s : string) : Prop :=
  match s with
  | EmptyString => True
  | String ch rest => ch <> a /\ free_of a rest
  end.

Lemma remove_all_free a old s :
  free_of a s -> remove_all (String a old) 0 s = s.
Proof.
  induction s as [|ch s IH]; [reflexivity|]. intros (Hne & Hfree).
  cbn [remove_all String.prefix].
  destruct (Ascii.ascii_dec a ch) as [->|_]; [congruence|].
  now rewrite IH.
Qed.

Lemma prefix_append s t : String.prefix s (String.append s t) = true.
Proof.
  induction s as [|a s IH]; [now destruct t|].
  cbn [String.append String.prefix].
  now destruct (Ascii.ascii_dec a a).
Qed.

Lemma replace_char_stem digits :
  free_of "c"%char digits ->
  replace_char (String.append "char" digits) = digits.
Proof.
  intros Hfree. unfold replace_char.
  pose proof (prefix_append "char" digits) as Hp.
  change (String.append "char" digits)
    with (String "c" (String.append "har" digits)) in *.
  cbn [remove_all]. rewrite Hp.
  rewrite (remove_all_skip "char" (String.length "char" - 1) "har" digits
             eq_refl).
  now apply remove_all_free.
Qed.



(** X15. For a file named by the convention, [char] followed by a string
    that holds no letter c, removing [char] from the stem leaves exactly that
    string: the thumbnail index is its integer value, and the position in
    the listing plus one when it is not an integer. *)
Theorem thumbnail_index_of_stem py_int (i : nat) f digits :
  path_stem f = String.append "char" digits -> free_of "c"%char digits ->
  replace_char (path_stem f) = digits /\
  thumbnail_index py_int i f
  = match py_int digits with
    | Some index => index
    | None => Z.of_nat i + 1
    end.
Proof.
  intros Hstem Hfree. unfold thumbnail_index.
  rewrite Hstem, (replace_char_stem digits Hfree). split; reflexivity.
Qed.

Lemma thumbnail_index_of_stem_witness :
  replace_char (path_stem (mkPath "char0001.bmp" "char0001")) = "0001"%string.
Proof.
  assert (Hfree : free_of "c"%char "0001") by (cbn; repeat split; discriminate).
  exact (proj1 (thumbnail_index_of_stem (fun _ => None) 0
                  (mkPath "char0001.bmp" "char0001") "0001" eq_refl Hfree)).
Defined.

(** ** A zoom of zero *)



(** ** The zoom buttons *)

Lemma adjust_zoom_ok delta e :
  zoomable (canvas e) ->
  let c' := with_zoom_level
              (Z.max 5 (Z.min 50 (zoom_level (canvas e) + delta))) (canvas e) in
  adjust_zoom delta e
  = (Ok tt, mkEditor (current_file e) (current_index e) c',
     trace_of (resize c')) /\
  zoomable c'.
Proof.
  intros Hzoom c'. rewrite adjust_zoom_eq. fold c'.
  assert (Hr : resizable c' = true)
    by (apply resizable_zoomable; [assumption | lia]).
  unfold resize. rewrite Hr. split; [reflexivity | exact Hzoom].
Qed.

(** X17. While the picture is small enough for the widget, "Zoom +"
    followed by "Zoom -" gives the zoom back exactly when there was room to
    zoom in (zoom at most 45), and "Zoom -" followed by "Zoom +" exactly when
    there was room to zoom out (zoom at least 10); at the ends of the range
    5..50 the first click is lost. *)
Theorem zoom_buttons_round_trip e :
  5 <= zoom_level (canvas e) <= 50 -> zoomable (canvas e) ->
  let z := zoom_level (canvas e) in
  let after evs := zoom_level (canvas (state_of (run evs e))) in
  (after [ZoomInClicked; ZoomOutClicked] = z <-> z <= 45) /\
  (after [ZoomOutClicked; ZoomInClicked] = z <-> 10 <= z) /\
  after [ZoomInClicked] = Z.min 50 (z + 5) /\
  after [ZoomOutClicked] = Z.max 5 (z - 5).
Proof.
  intros Hz Hzoom z after.
  assert (Hrun : forall d1 d2,
            zoom_level (canvas (state_of
              ((adjust_zoom d1 ;; adjust_zoom d2 ;; ret tt) e)))
            = Z.max 5 (Z.min 50 (Z.max 5 (Z.min 50 (z + d1)) + d2))).
  { intros d1 d2. unfold bind.
    destruct (adjust_zoom_ok d1 e Hzoom) as (-> & Hzoom1).
    set (e1 := mkEditor _ _ _) in *.
    destruct (adjust_zoom_ok d2 e1 Hzoom1) as (-> & _). reflexivity. }
  assert (Hone : forall d,
            zoom_level (canvas (state_of ((adjust_zoom d ;; ret tt) e)))
            = Z.max 5 (Z.min 50 (z + d))).
  { intros d. unfold bind. rewrite adjust_zoom_eq.
    now destruct (result_of _) as [[]|x]. }
  subst after. cbn [run handle].
  rewrite (Hrun 5 (-5)), (Hrun (-5) 5), (Hone 5), (Hone (-5)). lia.
Qed.

Lemma zoom_buttons_round_trip_witness :
  zoom_level (canvas (state_of (run [ZoomInClicked; ZoomOutClicked]
                                  Editor_init)))
  = zoom_level (canvas Editor_init) <->
  zoom_level (canvas Editor_init) <= 45.
Proof.
  assert (Hz : 5 <= zoom_level (canvas Editor_init) <= 50) by (cbn; lia).
  assert (Hzoom : zoomable (canvas Editor_init)) by exact I.
  exact (proj1 (zoom_buttons_round_trip Editor_init Hz Hzoom)).
Defined.

(** ** What a save shows *)

(** The message boxes in a trace ([LoadWorkspace] stands for the reload of
    the thumbnails as a whole). *)
Definition dialogs (tr : list effect) : list dialog :=
  flat_map (fun e => match e with
                     | MessageBox kind _ => [kind]
                     | _ => []
                     end) tr.

(** X18. Every click on Save makes [save_current] show exactly one message
    box of its own: the warning exactly when no file is open, the
    confirmation exactly when a file was written, the error otherwise; and
    the workspace is reloaded exactly when a file was written. *)
Theorem save_shows_one_dialog w e :
  let tr := trace_of (save_current w e) in
  (exists kind, dialogs tr = [kind]) /\
  (dialogs tr = [Warning] <-> file_set (current_file e) = None) /\
  (dialogs tr = [Information] <-> written_files tr <> []) /\
  (In LoadWorkspace tr <-> written_files tr <> []).
Proof.
  cbv zeta.
  destruct (file_set (current_file e)) as [path|] eqn:Hfile.
  - assert (Herror : save_current w e
                     = (Ok tt,
                        mkEditor (current_file e) (current_index e) (canvas e),
                        [MessageBox Critical "Save Error"]) ->
            (exists kind,
                dialogs (trace_of (save_current w e)) = [kind]) /\
            (dialogs (trace_of (save_current w e)) = [Warning] <->
             Some path = None) /\
            (dialogs (trace_of (save_current w e)) = [Information] <->
             written_files (trace_of (save_current w e)) <> []) /\
            (In LoadWorkspace (trace_of (save_current w e)) <->
             written_files (trace_of (save_current w e)) <> [])).
    { intros ->. cbn. split; [now eexists|].
      repeat split; try discriminate; try congruence; intuition discriminate. }
    destruct (image (canvas e)) as [img|] eqn:Himg.
    + destruct (truthy (original_palette (canvas e))) eqn:Hpal.
      * destruct (writable w path) eqn:Hw.
        -- destruct (truthy_Some _ Hpal) as (pal & Epal & Hne).
           rewrite (save_current_written w e path img pal Hfile Himg Epal Hne
                      Hw).
           cbn. split; [now eexists|].
           repeat split; try discriminate; auto.
        -- apply Herror.
           now apply save_current_io_error with (path := path) (img := img).
      * apply Herror. apply save_current_refused with (path := path); auto.
    + apply Herror. apply save_current_refused with (path := path); auto.
  - rewrite (save_current_no_file w e Hfile). cbn. split; [now eexists|].
    repeat split; try discriminate; try congruence; intuition discriminate.
Qed.
